(** * relay.py: the hand-tracking WebSocket relay

    A shallow embedding of [relay.py] and the properties of its routing,
    registries and broadcast.

    The program is a set of asyncio coroutines over three module globals
    ([unity_clients], [browser_clients], [messages_forwarded]).  A coroutine
    runs alone between two [await]s; at an [await] it is suspended and the
    other tasks of the relay may write the globals before it is resumed.
    The embedding is a state-and-exception monad over the globals that also
    emits the trace of what happened: the writes of the running coroutine,
    the writes of the other tasks during its suspensions, and its calls on
    the websocket objects.  What the world does at an [await] (the writes
    of the others, and how the awaited call completes) is an argument of
    the model.

    Not modelled: the text of the [log] calls (they read the globals and
    write none), wall-clock time ([start_time], the uptime of the stats
    line), exceptions that do not derive from [Exception] (task
    cancellation), an [await] that never completes. *)

From Stdlib Require Import List String Ascii ZArith Bool Arith Lia.
Import ListNotations.
Local Open Scope string_scope.
Local Open Scope list_scope.

(** ** Python values *)

(** A websocket object, by identity (Python hashes it by identity). *)
Definition conn := nat.

(** [set()] of websocket objects: the list of its members, without
    duplicates, in the order iteration yields them.  Python leaves that
    order unspecified; the model fixes it as the order of insertion. *)
Module PySet.

Definition t := list conn.

Definition empty : t := [].

Definition mem (x : conn) (s : t) : bool := existsb (Nat.eqb x) s.

(** [s.add(x)] *)
Definition add (x : conn) (s : t) : t := if mem x s then s else s ++ [x].

(** [s.discard(x)]: no error when [x] is absent. *)
Definition discard (x : conn) (s : t) : t :=
  filter (fun y => negb (Nat.eqb x y)) s.

(** [len(s)] *)
Definition len (s : t) : nat := List.length s.

(** the truth value of [s] in [if not s] *)
Definition truthy (s : t) : bool := negb (Nat.eqb (len s) 0).

End PySet.

(** The exceptions the program meets.  All derive from [Exception]. *)
Inductive exn :=
| ConnectionClosed      (* websockets.exceptions.ConnectionClosed *)
| RuntimeError          (* raised by a set iterator: Set changed size during iteration *)
| OtherException.       (* any other subclass of Exception *)

(** The classes named in the [except] clauses of the program. *)
Inductive exn_class := ClsConnectionClosed | ClsException.

Definition isinstance (e : exn) (c : exn_class) : bool :=
  match c, e with
  | ClsException, _ => true
  | ClsConnectionClosed, ConnectionClosed => true
  | ClsConnectionClosed, _ => false
  end.

Inductive result (A : Type) :=
| Ok (a : A)
| Raise (e : exn).
Arguments Ok {A} a.
Arguments Raise {A} e.

(** ** The module globals *)

Record relay := mkRelay {
  unity_clients : PySet.t;
  browser_clients : PySet.t;
  messages_forwarded : Z
}.


(** The five writes to the globals that occur in the program text. *)
Inductive mutation :=
| UnityAdd (c : conn)          (* unity_clients.add(c) *)
| UnityDiscard (c : conn)      (* unity_clients.discard(c) *)
| BrowserAdd (c : conn)        (* browser_clients.add(c) *)
| BrowserDiscard (c : conn)    (* browser_clients.discard(c) *)
| ForwardedIncr.               (* messages_forwarded += 1 *)

Definition apply (mu : mutation) (g : relay) : relay :=
  match mu with
  | UnityAdd c =>
      {| unity_clients := PySet.add c (unity_clients g);
         browser_clients := browser_clients g;
         messages_forwarded := messages_forwarded g |}
  | UnityDiscard c =>
      {| unity_clients := PySet.discard c (unity_clients g);
         browser_clients := browser_clients g;
         messages_forwarded := messages_forwarded g |}
  | BrowserAdd c =>
      {| unity_clients := unity_clients g;
         browser_clients := PySet.add c (browser_clients g);
         messages_forwarded := messages_forwarded g |}
  | BrowserDiscard c =>
      {| unity_clients := unity_clients g;
         browser_clients := PySet.discard c (browser_clients g);
         messages_forwarded := messages_forwarded g |}
  | ForwardedIncr =>
      {| unity_clients := unity_clients g;
         browser_clients := browser_clients g;
         messages_forwarded := (messages_forwarded g + 1)%Z |}
  end.

Definition apply_all (mus : list mutation) (g : relay) : relay :=
  fold_left (fun g mu => apply mu g) mus g.

(** ** Suspension points *)

(** What the world does at one [await]: the writes of the other tasks
    while the coroutine is suspended, then how the awaited call completes. *)
Record tick (A : Type) := mkTick {
  during : list mutation;
  completes : result A
}.
Arguments mkTick {A} during completes.
Arguments during {A} t.
Arguments completes {A} t.

(** ** Traces *)

Inductive event :=
| Own (mu : mutation)                               (* a write of the running coroutine *)
| Other (mu : mutation)                             (* a write of another task, at a suspension *)
| Send (c : conn) (m : string) (r : result unit)    (* await c.send(m) *)
| Recv (c : conn) (r : result (option string))      (* one step of async for over c; None: the iteration ends *)
| WaitClosed (c : conn) (r : result unit).          (* await c.wait_closed() *)

(** ** The monad of a coroutine *)

Definition M (A : Type) : Type := relay -> result A * relay * list event.

Definition ret {A} (a : A) : M A := fun g => (Ok a, g, []).

Definition bind {A B} (m : M A) (f : A -> M B) : M B :=
  fun g =>
    match m g with
    | (Ok a, g1, t1) =>
        match f a g1 with
        | (r, g2, t2) => (r, g2, t1 ++ t2)
        end
    | (Raise e, g1, t1) => (Raise e, g1, t1)
    end.

Notation "x <- m ;; k" := (bind m (fun x => k))
  (at level 61, m at next level, right associativity).
Notation "m ;;; k" := (bind m (fun _ => k))
  (at level 61, right associativity).

Definition get : M relay := fun g => (Ok g, g, []).

Definition raise {A} (e : exn) : M A := fun g => (Raise e, g, []).

(** A write of the running coroutine. *)
Definition write (mu : mutation) : M unit :=
  fun g => (Ok tt, apply mu g, [Own mu]).

(** The other tasks run. *)
Definition interleave (mus : list mutation) : M unit :=
  fun g => (Ok tt, apply_all mus g, map Other mus).

Definition emit (e : event) : M unit := fun g => (Ok tt, g, [e]).

Definition complete {A} (r : result A) : M A := fun g => (r, g, []).

(** [try: body except E1: h1 except E2: h2 ...]: the first clause whose
    class the exception is an instance of handles it. *)
Fixpoint dispatch {A} (clauses : list (exn_class * M A)) (e : exn) : M A :=
  match clauses with
  | [] => raise e
  | (c, h) :: rest => if isinstance e c then h else dispatch rest e
  end.

Definition try_except {A} (body : M A) (clauses : list (exn_class * M A)) : M A :=
  fun g =>
    match body g with
    | (Ok a, g1, t1) => (Ok a, g1, t1)
    | (Raise e, g1, t1) =>
        match dispatch clauses e g1 with
        | (r, g2, t2) => (r, g2, t1 ++ t2)
        end
    end.

(** [try: body finally: fin]: [fin] runs however [body] ends; the outcome
    of [body] stands unless [fin] raises. *)
Definition try_finally {A} (body : M A) (fin : M unit) : M A :=
  fun g =>
    match body g with
    | (r, g1, t1) =>
        match fin g1 with
        | (Ok _, g2, t2) => (r, g2, t1 ++ t2)
        | (Raise e, g2, t2) => (Raise e, g2, t1 ++ t2)
        end
    end.

(** [await c.send(m)] *)
Definition await_send (tk : tick unit) (c : conn) (m : string) : M unit :=
  emit (Send c m (completes tk));;; interleave (during tk);;; complete (completes tk).

(** [await c.wait_closed()] *)
Definition await_wait_closed (tk : tick unit) (c : conn) : M unit :=
  emit (WaitClosed c (completes tk));;; interleave (during tk);;; complete (completes tk).

(** One step of [async for message in c]. *)
Definition await_anext (tk : tick (option string)) (c : conn) : M (option string) :=
  emit (Recv c (completes tk));;; interleave (during tk);;; complete (completes tk).

(** ** The program *)

(** One [next] on the iterator of a set.  The iterator records the size of
    the set when the [for] statement starts ([si_used]) and its position
    ([si_pos]); every [next] first compares the present size of the set
    with [si_used] and raises [RuntimeError] when they differ.  [Ok None]
    is the end of the iteration. *)
Definition setiter_next (si_used si_pos : nat) (s : PySet.t) : result (option conn) :=
  if Nat.eqb (PySet.len s) si_used then Ok (nth_error s si_pos) else Raise RuntimeError.

(** The body of the first loop of [broadcast_to_unity], at one client:
<<
        try:
            await client.send(message)
            messages_forwarded += 1
        except websockets.exceptions.ConnectionClosed:
            dead.add(client)
        except Exception as e:
            dead.add(client)
>>
    It returns the set [dead] as the turn leaves it. *)
Definition attempt (tk : tick unit) (client : conn) (message : string)
    (dead : PySet.t) : M PySet.t :=
  try_except
    (await_send tk client message;;;
     write ForwardedIncr;;;
     ret dead)
    [ (ClsConnectionClosed, ret (PySet.add client dead));
      (ClsException, ret (PySet.add client dead)) ].

(** The first loop of [broadcast_to_unity], [for client in unity_clients].
    The iteration is over the global itself, read again at every [next].
    [remaining] counts the steps left to the end of a set of [si_used]
    members, the position is [si_used - remaining]; [fanout i] is what the
    world does at the [await] of step [i]. *)
Fixpoint for_clients (fanout : nat -> tick unit) (message : string)
    (si_used remaining : nat) (dead : PySet.t) : M PySet.t :=
  g <- get;;
  match setiter_next si_used (si_used - remaining) (unity_clients g) with
  | Raise e => raise e
  | Ok None => ret dead
  | Ok (Some client) =>
      match remaining with
      | O => ret dead
      | S remaining' =>
          dead' <- attempt (fanout (si_used - remaining)) client message dead;;
          for_clients fanout message si_used remaining' dead'
      end
  end.

(** The second loop: [for d in dead: unity_clients.discard(d)]. *)
Fixpoint discard_dead (dead : PySet.t) : M unit :=
  match dead with
  | [] => ret tt
  | d :: rest => write (UnityDiscard d);;; discard_dead rest
  end.

Definition broadcast_to_unity (fanout : nat -> tick unit) (message : string) : M unit :=
  g <- get;;
  if negb (PySet.truthy (unity_clients g)) then ret tt
  else
    dead <- for_clients fanout message
              (PySet.len (unity_clients g)) (PySet.len (unity_clients g)) PySet.empty;;
    discard_dead dead.

(** [json.dumps] of a dict of strings to strings none of which holds a
    character that JSON escapes. *)
Definition dquote : string := String (ascii_of_nat 34) EmptyString.

Definition json_string (s : string) : string := (dquote ++ s ++ dquote)%string.

Definition json_dumps (d : list (string * string)) : string :=
  ("{" ++ String.concat ", "
            (map (fun kv => json_string (fst kv) ++ ": " ++ json_string (snd kv)) d)
       ++ "}")%string.

(** The dict of the handshake. *)
Definition relay_ready : list (string * string) :=
  [ ("type", "relay_ready");
    ("message", "Hand tracking relay connected");
    ("version", "1.0") ].

(** What the world does to one connection over its life. *)

(** A frame that arrives on a browser connection. *)
Record delivery := mkDelivery {
  arrival : list mutation;      (* the others, while the handler waits for the frame *)
  payload : string;
  fanout_of : nat -> tick unit  (* the awaits of the broadcast of this frame *)
}.

(** The end of the frames: [stop = None] when the peer closed with a close
    code that is no error (the iteration ends), [Some e] when the
    iteration raises [e]. *)
Record closure := mkClosure {
  before_close : list mutation;
  stop : option exn
}.

Record session := mkSession {
  inbound : list delivery;      (* browser: the frames, in order *)
  ending : closure;             (* browser: how the frames end *)
  handshake : tick unit;        (* unity: the await of the handshake *)
  closing : tick unit           (* unity: the await of wait_closed *)
}.

(** [async for message in websocket: await broadcast_to_unity(message)] *)
Fixpoint read_loop (websocket : conn) (frames : list delivery) (fin : closure) : M unit :=
  match frames with
  | [] =>
      await_anext
        (mkTick (before_close fin)
                (match stop fin with None => Ok None | Some e => Raise e end))
        websocket;;;
      ret tt
  | d :: rest =>
      await_anext (mkTick (arrival d) (Ok (Some (payload d)))) websocket;;;
      broadcast_to_unity (fanout_of d) (payload d);;;
      read_loop websocket rest fin
  end.

Definition handler (websocket : conn) (path : string) (s : session) : M unit :=
  if String.eqb path "/browser" then
    write (BrowserAdd websocket);;;
    try_finally
      (try_except (read_loop websocket (inbound s) (ending s))
                  [ (ClsConnectionClosed, ret tt) ])
      (write (BrowserDiscard websocket))
  else
    write (UnityAdd websocket);;;
    try_except (await_send (handshake s) websocket (json_dumps relay_ready))
               [ (ClsException, ret tt) ];;;
    try_finally
      (try_except (await_wait_closed (closing s) websocket)
                  [ (ClsConnectionClosed, ret tt) ])
      (write (UnityDiscard websocket)).

(** The figures of one stats line (the uptime apart). *)
Record stats := mkStats {
  stat_forwarded : Z;
  stat_browser : nat;
  stat_unity : nat
}.

(** [print_stats], over the sleeps that have completed so far: each turn
    of [while True] sleeps (the others run) and logs one line. *)
Fixpoint print_stats (sleeps : list (list mutation)) : M (list stats) :=
  match sleeps with
  | [] => ret []
  | others :: rest =>
      interleave others;;;
      g <- get;;
      lines <- print_stats rest;;
      ret (mkStats (messages_forwarded g)
                   (PySet.len (browser_clients g))
                   (PySet.len (unity_clients g)) :: lines)
  end.

(** ** Running a coroutine *)

Definition outcome {A} (x : result A * relay * list event) : result A := fst (fst x).
Definition final {A} (x : result A * relay * list event) : relay := snd (fst x).
Definition trace {A} (x : result A * relay * list event) : list event := snd x.

(** ** What the statements are about *)

(** The writes of a trace, in order. *)
Definition writes_of (tr : list event) : list mutation :=
  flat_map (fun ev => match ev with Own mu | Other mu => [mu] | _ => [] end) tr.

(** A computation is [consistent] when, from every state, it ends in the
    state that the writes of its trace, replayed in order, lead to. *)
Definition consistent {A} (m : M A) : Prop :=
  forall g, final (m g) = apply_all (writes_of (trace (m g))) g.

(** The events of one turn of the first loop of [broadcast_to_unity]. *)
Definition step_trace (tk : tick unit) (client : conn) (message : string) : list event :=
  Send client message (completes tk)
    :: map Other (during tk)
    ++ match completes tk with Ok _ => [Own ForwardedIncr] | Raise _ => [] end.

(** The globals after one turn of that loop. *)
Definition step_state (tk : tick unit) (g : relay) : relay :=
  match completes tk with
  | Ok _ => apply ForwardedIncr (apply_all (during tk) g)
  | Raise _ => apply_all (during tk) g
  end.

(** The set [dead] after one turn of that loop. *)
Definition step_dead (tk : tick unit) (client : conn) (dead : PySet.t) : PySet.t :=
  match completes tk with
  | Ok _ => dead
  | Raise _ => PySet.add client dead
  end.

(** Following the words of the specification (4.2, 4.3, 9): the pass is
    over an immutable copy of the registry, taken when the call starts;
    failures are collected and removed after the pass. *)
Fixpoint for_snapshot (fanout : nat -> tick unit) (message : string)
    (pos : nat) (snapshot : list conn) (dead : PySet.t) : M PySet.t :=
  match snapshot with
  | [] => ret dead
  | client :: rest =>
      dead' <- attempt (fanout pos) client message dead;;
      for_snapshot fanout message (S pos) rest dead'
  end.

Definition broadcast_snapshot (fanout : nat -> tick unit) (message : string) : M unit :=
  g <- get;;
  if negb (PySet.truthy (unity_clients g)) then ret tt
  else
    dead <- for_snapshot fanout message 0 (unity_clients g) PySet.empty;;
    discard_dead dead.

(** A write that leaves [unity_clients] as it is. *)
Definition leaves_unity (mu : mutation) : bool :=
  match mu with
  | UnityAdd _ | UnityDiscard _ => false
  | BrowserAdd _ | BrowserDiscard _ | ForwardedIncr => true
  end.

(** No other task writes [unity_clients] during the first [n] awaits. *)
Definition undisturbed (fanout : nat -> tick unit) (n : nat) : Prop :=
  forall i, i < n -> forallb leaves_unity (during (fanout i)) = true.

(** Counting the events of a trace. *)
Definition count (f : event -> bool) (tr : list event) : nat :=
  List.length (filter f tr).

Definition is_sent (ev : event) : bool :=
  match ev with Send _ _ (Ok _) => true | _ => false end.

Definition is_own_incr (ev : event) : bool :=
  match ev with Own ForwardedIncr => true | _ => false end.

Definition is_other_incr (ev : event) : bool :=
  match ev with Other ForwardedIncr => true | _ => false end.

(** The sends of a trace: to whom, and what. *)
Definition attempts (tr : list event) : list (conn * string) :=
  flat_map (fun ev => match ev with Send c m _ => [(c, m)] | _ => [] end) tr.

(** The writes of the other tasks in a trace. *)
Definition others_of (tr : list event) : list mutation :=
  flat_map (fun ev => match ev with Other mu => [mu] | _ => [] end) tr.


(** The pass over a list of clients, in closed form: its events, the
    globals it leaves, and the clients whose send failed. *)
Fixpoint pass_trace (fanout : nat -> tick unit) (message : string)
    (pos : nat) (clients : list conn) : list event :=
  match clients with
  | [] => []
  | client :: rest =>
      step_trace (fanout pos) client message ++ pass_trace fanout message (S pos) rest
  end.

Fixpoint pass_state (fanout : nat -> tick unit) (pos : nat) (clients : list conn)
    (g : relay) : relay :=
  match clients with
  | [] => g
  | _ :: rest => pass_state fanout (S pos) rest (step_state (fanout pos) g)
  end.

Fixpoint casualties (fanout : nat -> tick unit) (pos : nat) (clients : list conn)
    (dead : PySet.t) : PySet.t :=
  match clients with
  | [] => dead
  | client :: rest =>
      casualties fanout (S pos) rest (step_dead (fanout pos) client dead)
  end.

(** What a trace of [broadcast_to_unity] for [message] may hold: sends of
    [message], writes of the other tasks, increments of the counter, and
    the removal of a client whose send failed in the pass [pass]. *)
Definition pass_event (message : string) (ev : event) : Prop :=
  match ev with
  | Send _ m _ => m = message
  | Other _ => True
  | Own ForwardedIncr => True
  | _ => False
  end.

Definition broadcast_event (message : string) (pass : list event) (ev : event) : Prop :=
  match ev with
  | Own (UnityDiscard d) => exists e, In (Send d message (Raise e)) pass
  | _ => pass_event message ev
  end.

(** A property of traces that holds of every run of a computation. *)
Definition always {A} (Q : list event -> Prop) (m : M A) : Prop :=
  forall g, Q (trace (m g)).

(** The two kinds of connection, and the write that registers, or removes,
    a connection of each kind. *)
Inductive role := Publisher | Subscriber.

Definition registration (r : role) (c : conn) : mutation :=
  match r with
  | Publisher => BrowserAdd c
  | Subscriber => UnityAdd c
  end.

Definition deregistration (r : role) (c : conn) : mutation :=
  match r with
  | Publisher => BrowserDiscard c
  | Subscriber => UnityDiscard c
  end.

Definition registry (r : role) (g : relay) : PySet.t :=
  match r with
  | Publisher => browser_clients g
  | Subscriber => unity_clients g
  end.

(** The role the handler gives a connection, read off what it does first:
    the registry it adds the connection to. *)
Definition classified (websocket : conn) (path : string) (s : session) (g : relay)
    (r : role) : Prop :=
  hd_error (trace (handler websocket path s g)) = Some (Own (registration r websocket)).

Definition mutation_eqb (a b : mutation) : bool :=
  match a, b with
  | UnityAdd x, UnityAdd y => Nat.eqb x y
  | UnityDiscard x, UnityDiscard y => Nat.eqb x y
  | BrowserAdd x, BrowserAdd y => Nat.eqb x y
  | BrowserDiscard x, BrowserDiscard y => Nat.eqb x y
  | ForwardedIncr, ForwardedIncr => true
  | _, _ => false
  end.

(** The event is the write [mu] of the running coroutine. *)
Definition is_own (mu : mutation) (ev : event) : bool :=
  match ev with
  | Own mu' => mutation_eqb mu' mu
  | _ => false
  end.

(** A write that leaves [browser_clients] as it is. *)
Definition leaves_browser (mu : mutation) : bool :=
  match mu with
  | BrowserAdd _ | BrowserDiscard _ => false
  | UnityAdd _ | UnityDiscard _ | ForwardedIncr => true
  end.

(** The figures a stats line shows of the globals [g]. *)
Definition stats_of (g : relay) : stats :=
  mkStats (messages_forwarded g)
          (PySet.len (browser_clients g))
          (PySet.len (unity_clients g)).

(** The messages of [ks_i] sends of the payload of the [i]-th frame, frame
    after frame. *)
Definition blocks (frames : list delivery) (ks : list nat) : list string :=
  List.concat (map (fun p => repeat (payload (fst p)) (snd p)) (combine frames ks)).

(** A frame during whose arrival and broadcast no other task writes
    [unity_clients], and whose first [n] sends all succeed. *)
Definition smooth (n : nat) (d : delivery) : Prop :=
  forallb leaves_unity (arrival d) = true /\
  undisturbed (fanout_of d) n /\
  (forall i, i < n -> completes (fanout_of d i) = Ok tt).

(** The globals each time the stats loop wakes up: after the writes the
    other tasks make during the first sleep, during the first two, ... *)
Fixpoint wakeups (sleeps : list (list mutation)) (g : relay) : list relay :=
  match sleeps with
  | [] => []
  | others :: rest => apply_all others g :: wakeups rest (apply_all others g)
  end.

(** ** Sample runs *)

(** Two subscribers and one publisher are connected. *)
Definition two_subscribers : relay :=
  {| unity_clients := [1; 2]; browser_clients := [7]; messages_forwarded := 0%Z |}.

(** The same two subscribers, before the publisher connects. *)
Definition before_publisher : relay :=
  {| unity_clients := [1; 2]; browser_clients := []; messages_forwarded := 0%Z |}.

(** Every send succeeds and no other task runs. *)
Definition calm : nat -> tick unit := fun _ => mkTick [] (Ok tt).

(** The first send fails; no other task runs. *)
Definition first_fails : nat -> tick unit :=
  fun i => if Nat.eqb i 0 then mkTick [] (Raise ConnectionClosed) else mkTick [] (Ok tt).

(** The first subscriber is closing: while the send to it is suspended its
    own handler returns from [wait_closed] and removes it from
    [unity_clients]; the send then raises [ConnectionClosed]. *)
Definition first_leaves : nat -> tick unit :=
  fun i => if Nat.eqb i 0 then mkTick [UnityDiscard 1] (Raise ConnectionClosed)
           else mkTick [] (Ok tt).

(** A third subscriber connects while the first send is suspended: its
    handler adds it to [unity_clients]. *)
Definition third_joins : nat -> tick unit :=
  fun i => if Nat.eqb i 0 then mkTick [UnityAdd 3] (Ok tt) else mkTick [] (Ok tt).

(** The first subscriber is closing and a third one connects: while the
    send to the first is suspended the handler of the third adds it to
    [unity_clients]; the send then raises [ConnectionClosed]. *)
Definition first_fails_as_third_joins : nat -> tick unit :=
  fun i => if Nat.eqb i 0 then mkTick [UnityAdd 3] (Raise ConnectionClosed)
           else mkTick [] (Ok tt).

(** A publisher that sends one frame and closes. *)
Definition one_frame (fanout : nat -> tick unit) : session :=
  {| inbound := [mkDelivery [] "ping" fanout];
     ending := mkClosure [] None;
     handshake := mkTick [] (Ok tt);
     closing := mkTick [] (Ok tt) |}.

(** A publisher that sends two frames, every send of which succeeds, and
    closes; no other task runs. *)
Definition two_frames : session :=
  {| inbound := [mkDelivery [] "ping" calm; mkDelivery [] "pong" calm];
     ending := mkClosure [] None;
     handshake := mkTick [] (Ok tt);
     closing := mkTick [] (Ok tt) |}.

(** A subscriber whose handshake fails and that closes at once; no other
    task runs. *)
Definition short_visit : session :=
  {| inbound := [];
     ending := mkClosure [] None;
     handshake := mkTick [] (Raise ConnectionClosed);
     closing := mkTick [] (Ok tt) |}.

(** The second subscriber is closing: its handler removes it while the
    send to it, the second of the pass, is suspended. *)
Definition second_leaves : nat -> tick unit :=
  fun i => if Nat.eqb i 1 then mkTick [UnityDiscard 2] (Raise ConnectionClosed)
           else mkTick [] (Ok tt).

(** * Properties *)

(** The text of the handshake. *)
Example handshake_text :
  json_dumps relay_ready =
  String.concat dquote
    [ "{"; "type"; ": "; "relay_ready"; ", ";
      "message"; ": "; "Hand tracking relay connected"; ", ";
      "version"; ": "; "1.0"; "}" ].
Proof. reflexivity. Qed.


(** ** Sets *)

Module PySetFacts.
Import PySet.

Lemma mem_In (x : conn) (s : t) : mem x s = true <-> In x s.
Proof.
  unfold mem. rewrite existsb_exists. split.
  - intros [y [Hy Heq]]. apply Nat.eqb_eq in Heq. now subst.
  - intros H. exists x. split; [assumption | apply Nat.eqb_refl].
Qed.

Lemma mem_false (x : conn) (s : t) : mem x s = false <-> ~ In x s.
Proof.
  rewrite <- mem_In. destruct (mem x s); split; congruence.
Qed.

Lemma In_add (x y : conn) (s : t) : In y (add x s) <-> y = x \/ In y s.
Proof.
  unfold add. destruct (mem x s) eqn:E.
  - apply mem_In in E. split; [tauto | intros [-> | H]; assumption].
  - rewrite in_app_iff. simpl. split; intros H.
    + destruct H as [H | [H | []]]; [now right | left; now symmetry].
    + destruct H as [H | H]; [right; left; now symmetry | now left].
Qed.

Lemma In_discard (x y : conn) (s : t) : In y (discard x s) <-> y <> x /\ In y s.
Proof.
  unfold discard. rewrite filter_In, negb_true_iff, Nat.eqb_neq.
  split; intros [H1 H2]; split; auto.
Qed.

Lemma add_present (x : conn) (s : t) : mem x s = true -> add x s = s.
Proof. unfold add. now intros ->. Qed.

Lemma discard_absent (x : conn) (s : t) : mem x s = false -> discard x s = s.
Proof.
  rewrite mem_false. unfold discard. induction s as [| y s IH]; simpl; intros H.
  - reflexivity.
  - destruct (Nat.eqb x y) eqn:E.
    + apply Nat.eqb_eq in E. exfalso. apply H. now left.
    + simpl. f_equal. apply IH. intros Hin. apply H. now right.
Qed.

Lemma mem_discard_same (x : conn) (s : t) : mem x (discard x s) = false.
Proof. apply mem_false. rewrite In_discard. tauto. Qed.

Lemma discard_twice (x : conn) (s : t) : discard x (discard x s) = discard x s.
Proof. apply discard_absent, mem_discard_same. Qed.

Lemma NoDup_add (x : conn) (s : t) : NoDup s -> NoDup (add x s).
Proof.
  unfold add. destruct (mem x s) eqn:E; [trivial |].
  apply mem_false in E. intros H. induction H as [| y s Hy Hs IH]; simpl.
  - constructor; [intros [] | constructor].
  - constructor.
    + rewrite in_app_iff. simpl. intros [H | [H | []]]; [now apply Hy |].
      apply E. left. now symmetry.
    + apply IH. intros Hin. apply E. now right.
Qed.

Lemma NoDup_discard (x : conn) (s : t) : NoDup s -> NoDup (discard x s).
Proof. apply NoDup_filter. Qed.

Lemma len_discard_member (x : conn) (s : t) :
  NoDup s -> In x s -> S (len (discard x s)) = len s.
Proof.
  unfold len. intros H. induction H as [| y s Hy Hs IH]; simpl; intros Hin.
  - destruct Hin.
  - destruct (Nat.eqb x y) eqn:E; simpl.
    + apply Nat.eqb_eq in E. subst y.
      fold (discard x s). rewrite discard_absent; [reflexivity | now apply mem_false].
    + apply Nat.eqb_neq in E. destruct Hin as [Hin | Hin]; [congruence |].
      f_equal. now apply IH.
Qed.

Lemma truthy_false (s : t) : truthy s = false <-> s = [].
Proof.
  unfold truthy, len. destruct s; simpl; split; intros H; try reflexivity; discriminate.
Qed.

End PySetFacts.

(** ** The globals are what the writes of the trace make of them *)

Lemma writes_of_app (t1 t2 : list event) :
  writes_of (t1 ++ t2) = writes_of t1 ++ writes_of t2.
Proof. unfold writes_of. apply flat_map_app. Qed.

Lemma writes_of_others (mus : list mutation) : writes_of (map Other mus) = mus.
Proof. induction mus as [| mu mus IH]; simpl; [reflexivity | now rewrite IH]. Qed.

Lemma apply_all_app (m1 m2 : list mutation) (g : relay) :
  apply_all (m1 ++ m2) g = apply_all m2 (apply_all m1 g).
Proof. unfold apply_all. apply fold_left_app. Qed.

Section Consistency.

Lemma consistent_ret {A} (a : A) : consistent (ret a).
Proof. intro g. reflexivity. Qed.

Lemma consistent_get : consistent get.
Proof. intro g. reflexivity. Qed.

Lemma consistent_raise {A} (e : exn) : consistent (@raise A e).
Proof. intro g. reflexivity. Qed.

Lemma consistent_complete {A} (r : result A) : consistent (complete r).
Proof. intro g. reflexivity. Qed.

Lemma consistent_write (mu : mutation) : consistent (write mu).
Proof. intro g. reflexivity. Qed.

Lemma consistent_interleave (mus : list mutation) : consistent (interleave mus).
Proof. intro g. unfold interleave, final, trace. simpl. now rewrite writes_of_others. Qed.

Lemma consistent_emit_send c m r : consistent (emit (Send c m r)).
Proof. intro g. reflexivity. Qed.

Lemma consistent_emit_recv c r : consistent (emit (Recv c r)).
Proof. intro g. reflexivity. Qed.

Lemma consistent_emit_wait c r : consistent (emit (WaitClosed c r)).
Proof. intro g. reflexivity. Qed.

Lemma consistent_bind {A B} (m : M A) (f : A -> M B) :
  consistent m -> (forall a, consistent (f a)) -> consistent (bind m f).
Proof.
  intros Hm Hf g. unfold bind. specialize (Hm g).
  destruct (m g) as [[[a | e] g1] t1]; unfold final, trace in *; simpl in *.
  - specialize (Hf a g1). destruct (f a g1) as [[r g2] t2]; simpl in *.
    now rewrite writes_of_app, apply_all_app, <- Hm.
  - assumption.
Qed.

Lemma consistent_dispatch {A} (clauses : list (exn_class * M A)) (e : exn) :
  Forall (fun ch => consistent (snd ch)) clauses -> consistent (dispatch clauses e).
Proof.
  induction 1 as [| [c h] rest Hh _ IH]; simpl.
  - apply consistent_raise.
  - destruct (isinstance e c); assumption.
Qed.

Lemma consistent_try_except {A} (body : M A) (clauses : list (exn_class * M A)) :
  consistent body -> Forall (fun ch => consistent (snd ch)) clauses ->
  consistent (try_except body clauses).
Proof.
  intros Hb Hc g. unfold try_except. specialize (Hb g).
  destruct (body g) as [[[a | e] g1] t1]; unfold final, trace in *; simpl in *.
  - assumption.
  - pose proof (consistent_dispatch clauses e Hc g1) as Hd.
    destruct (dispatch clauses e g1) as [[r g2] t2]; unfold final, trace in *; simpl in *.
    now rewrite writes_of_app, apply_all_app, <- Hb.
Qed.

Lemma consistent_try_finally {A} (body : M A) (fin : M unit) :
  consistent body -> consistent fin -> consistent (try_finally body fin).
Proof.
  intros Hb Hf g. unfold try_finally. specialize (Hb g).
  destruct (body g) as [[r g1] t1]; unfold final, trace in *; simpl in *.
  specialize (Hf g1).
  destruct (fin g1) as [[[u | e] g2] t2]; unfold final, trace in *; simpl in *;
    now rewrite writes_of_app, apply_all_app, <- Hb.
Qed.

End Consistency.

Create HintDb relay discriminated.
#[export] Hint Resolve consistent_ret consistent_get consistent_raise consistent_complete
  consistent_write consistent_interleave consistent_emit_send consistent_emit_recv
  consistent_emit_wait : relay.

(** ** Running the monad *)

Lemma bind_eq {A B} (m : M A) (f : A -> M B) (g : relay) :
  bind m f g =
  match m g with
  | (Ok a, g1, t1) =>
      match f a g1 with
      | (r, g2, t2) => (r, g2, t1 ++ t2)
      end
  | (Raise e, g1, t1) => (Raise e, g1, t1)
  end.
Proof. reflexivity. Qed.

(** ** One turn of the loop *)

Lemma attempt_run (tk : tick unit) (client : conn) (message : string)
    (dead : PySet.t) (g : relay) :
  attempt tk client message dead g =
  (Ok (step_dead tk client dead), step_state tk g, step_trace tk client message).
Proof.
  destruct tk as [mus [[] | e]]; [| destruct e];
    unfold attempt, try_except, await_send, bind, emit, interleave, complete, write, ret,
      step_dead, step_state, step_trace; simpl;
    rewrite ?app_nil_r; reflexivity.
Qed.

Lemma for_clients_unfold (fanout : nat -> tick unit) (message : string)
    (n r : nat) (dead : PySet.t) (g : relay) :
  for_clients fanout message n r dead g =
  match setiter_next n (n - r) (unity_clients g) with
  | Raise e => (Raise e, g, [])
  | Ok None => (Ok dead, g, [])
  | Ok (Some client) =>
      match r with
      | O => (Ok dead, g, [])
      | S r' =>
          let tk := fanout (n - r) in
          match for_clients fanout message n r' (step_dead tk client dead) (step_state tk g) with
          | (res, g2, t2) => (res, g2, step_trace tk client message ++ t2)
          end
      end
  end.
Proof.
  destruct r as [| r']; simpl; unfold bind at 1, get;
    destruct (setiter_next _ _ _) as [[client |] | e]; try reflexivity.
  unfold bind. rewrite attempt_run.
  destruct (for_clients _ _ _ _ _ _) as [[res g2] t2]. reflexivity.
Qed.

Lemma discard_dead_run (dead : PySet.t) (g : relay) :
  discard_dead dead g =
  (Ok tt, apply_all (map UnityDiscard dead) g, map (fun d => Own (UnityDiscard d)) dead).
Proof.
  revert g. induction dead as [| d rest IH]; intro g; simpl.
  - reflexivity.
  - unfold bind, write. rewrite IH. reflexivity.
Qed.

Lemma broadcast_unfold (fanout : nat -> tick unit) (message : string) (g : relay) :
  broadcast_to_unity fanout message g =
  match unity_clients g with
  | [] => (Ok tt, g, [])
  | _ :: _ =>
      let n := PySet.len (unity_clients g) in
      match for_clients fanout message n n PySet.empty g with
      | (Ok dead, g1, t1) =>
          (Ok tt, apply_all (map UnityDiscard dead) g1,
           t1 ++ map (fun d => Own (UnityDiscard d)) dead)
      | (Raise e, g1, t1) => (Raise e, g1, t1)
      end
  end.
Proof.
  unfold broadcast_to_unity. rewrite bind_eq. unfold get. cbv beta iota.
  destruct (unity_clients g) as [| c s] eqn:E; [reflexivity |].
  change (negb (PySet.truthy (c :: s))) with false. cbv beta iota zeta.
  rewrite bind_eq.
  destruct (for_clients _ _ _ _ _ g) as [[[dead | e] g1] t1]; [| reflexivity].
  rewrite discard_dead_run. reflexivity.
Qed.

(** ** The loop, whatever the other tasks do *)

Ltac consistency :=
  repeat first
    [ solve [auto with relay]
    | apply consistent_bind; [| intro]
    | apply consistent_try_except
    | apply consistent_try_finally
    | apply Forall_cons; [simpl |]
    | apply Forall_nil ].

Lemma consistent_await_send tk c m : consistent (await_send tk c m).
Proof. unfold await_send. consistency. Qed.

Lemma consistent_await_wait_closed tk c : consistent (await_wait_closed tk c).
Proof. unfold await_wait_closed. consistency. Qed.

Lemma consistent_await_anext tk c : consistent (await_anext tk c).
Proof. unfold await_anext. consistency. Qed.

#[export] Hint Resolve consistent_await_send consistent_await_wait_closed
  consistent_await_anext : relay.

Lemma consistent_attempt tk client message dead :
  consistent (attempt tk client message dead).
Proof. unfold attempt. consistency. Qed.

Lemma consistent_for_clients fanout message n r dead :
  consistent (for_clients fanout message n r dead).
Proof.
  revert dead. induction r as [| r IH]; intro dead; simpl.
  - apply consistent_bind; [auto with relay | intro g].
    destruct (setiter_next _ _ _) as [[c |] | e]; auto with relay.
  - apply consistent_bind; [auto with relay | intro g].
    destruct (setiter_next _ _ _) as [[c |] | e]; auto with relay.
    apply consistent_bind; [apply consistent_attempt | intro; apply IH].
Qed.

Lemma consistent_discard_dead dead : consistent (discard_dead dead).
Proof.
  induction dead as [| d rest IH]; simpl; [auto with relay |].
  apply consistent_bind; [auto with relay | intro; exact IH].
Qed.

Lemma consistent_broadcast fanout message :
  consistent (broadcast_to_unity fanout message).
Proof.
  unfold broadcast_to_unity.
  apply consistent_bind; [auto with relay | intro g].
  destruct (negb _); [auto with relay |].
  apply consistent_bind; [apply consistent_for_clients | intro; apply consistent_discard_dead].
Qed.

Lemma count_app f t1 t2 : count f (t1 ++ t2) = count f t1 + count f t2.
Proof. unfold count. now rewrite filter_app, length_app. Qed.

Lemma count_others f mus :
  (forall mu, f (Other mu) = false) -> count f (map Other mus) = 0.
Proof.
  intro H. unfold count. induction mus as [| mu mus IH]; simpl; [reflexivity |].
  now rewrite H.
Qed.

Lemma count_cons f ev tr :
  count f (ev :: tr) = (if f ev then 1 else 0) + count f tr.
Proof. unfold count. simpl. now destruct (f ev). Qed.

Lemma step_trace_incr tk client message :
  count is_own_incr (step_trace tk client message) =
  count is_sent (step_trace tk client message).
Proof.
  unfold step_trace.
  rewrite !count_cons, !count_app, !count_others by reflexivity.
  destruct (completes tk); reflexivity.
Qed.

Lemma for_clients_incr fanout message n r dead g :
  count is_own_incr (trace (for_clients fanout message n r dead g)) =
  count is_sent (trace (for_clients fanout message n r dead g)).
Proof.
  revert dead g. induction r as [| r IH]; intros dead g; rewrite for_clients_unfold;
    destruct (setiter_next _ _ _) as [[c |] | e]; try reflexivity.
  cbv zeta. specialize (IH (step_dead (fanout (n - S r)) c dead) (step_state (fanout (n - S r)) g)).
  destruct (for_clients _ _ _ _ _ _) as [[res g2] t2]. unfold trace in *; cbn [snd] in *.
  now rewrite !count_app, step_trace_incr, IH.
Qed.

Lemma count_discards f dead :
  (forall d, f (Own (UnityDiscard d)) = false) ->
  count f (map (fun d => Own (UnityDiscard d)) dead) = 0.
Proof.
  intro H. unfold count. induction dead as [| d dead IH]; simpl; [reflexivity |].
  now rewrite H.
Qed.

Lemma broadcast_incr fanout message g :
  count is_own_incr (trace (broadcast_to_unity fanout message g)) =
  count is_sent (trace (broadcast_to_unity fanout message g)).
Proof.
  rewrite broadcast_unfold. destruct (unity_clients g) as [| c s]; [reflexivity |].
  cbv zeta. pose proof (for_clients_incr fanout message (PySet.len (c :: s)) (PySet.len (c :: s)) PySet.empty g) as H.
  destruct (for_clients _ _ _ _ _ _) as [[[dead | e] g1] t1]; unfold trace in *; cbn [snd] in *.
  - now rewrite !count_app, !count_discards, H by reflexivity.
  - exact H.
Qed.

(** ** The counter *)

Lemma forwarded_apply mu g :
  messages_forwarded (apply mu g) =
  (messages_forwarded g + match mu with ForwardedIncr => 1 | _ => 0 end)%Z.
Proof. destruct mu; simpl; lia. Qed.

Lemma forwarded_replay tr g :
  messages_forwarded (apply_all (writes_of tr) g) =
  (messages_forwarded g + Z.of_nat (count is_own_incr tr)
                        + Z.of_nat (count is_other_incr tr))%Z.
Proof.
  revert g. induction tr as [| ev tr IH]; intro g.
  - simpl. unfold count. simpl. lia.
  - change (writes_of (ev :: tr))
      with ((match ev with Own mu | Other mu => [mu] | _ => [] end) ++ writes_of tr).
    rewrite apply_all_app, IH, !count_cons.
    destruct ev as [mu | mu | | |]; simpl; try lia;
      rewrite forwarded_apply; destruct mu; simpl; lia.
Qed.

Lemma forwarded_of_run {A} (m : M A) g :
  consistent m ->
  messages_forwarded (final (m g)) =
  (messages_forwarded g + Z.of_nat (count is_own_incr (trace (m g)))
                        + Z.of_nat (count is_other_incr (trace (m g))))%Z.
Proof. intro H. rewrite (H g). apply forwarded_replay. Qed.

(** ** Properties of traces that the combinators preserve *)

Section TraceProperty.

Variable Q : list event -> Prop.
Hypothesis Q_nil : Q [].
Hypothesis Q_app : forall t1 t2, Q t1 -> Q t2 -> Q (t1 ++ t2).

Lemma always_ret {A} (a : A) : always Q (ret a).
Proof. intro g. exact Q_nil. Qed.

Lemma always_get : always Q get.
Proof. intro g. exact Q_nil. Qed.

Lemma always_raise {A} (e : exn) : always Q (@raise A e).
Proof. intro g. exact Q_nil. Qed.

Lemma always_complete {A} (r : result A) : always Q (complete r).
Proof. intro g. exact Q_nil. Qed.

Lemma always_bind {A B} (m : M A) (f : A -> M B) :
  always Q m -> (forall a, always Q (f a)) -> always Q (bind m f).
Proof.
  intros Hm Hf g. rewrite bind_eq. specialize (Hm g).
  destruct (m g) as [[[a | e] g1] t1]; unfold trace in *; cbn [snd] in *.
  - specialize (Hf a g1). destruct (f a g1) as [[r g2] t2]. cbn [snd] in *. auto.
  - assumption.
Qed.

Lemma always_dispatch {A} (clauses : list (exn_class * M A)) (e : exn) :
  Forall (fun ch => always Q (snd ch)) clauses -> always Q (dispatch clauses e).
Proof.
  induction 1 as [| [c h] rest Hh _ IH]; simpl.
  - apply always_raise.
  - destruct (isinstance e c); assumption.
Qed.

Lemma always_try_except {A} (body : M A) (clauses : list (exn_class * M A)) :
  always Q body -> Forall (fun ch => always Q (snd ch)) clauses ->
  always Q (try_except body clauses).
Proof.
  intros Hb Hc g. unfold try_except. specialize (Hb g).
  destruct (body g) as [[[a | e] g1] t1]; unfold trace in *; cbn [snd] in *.
  - assumption.
  - pose proof (always_dispatch clauses e Hc g1) as Hd.
    destruct (dispatch clauses e g1) as [[r g2] t2]. unfold trace in *; cbn [snd] in *. auto.
Qed.

Lemma always_try_finally {A} (body : M A) (fin : M unit) :
  always Q body -> always Q fin -> always Q (try_finally body fin).
Proof.
  intros Hb Hf g. unfold try_finally. specialize (Hb g).
  destruct (body g) as [[r g1] t1]. specialize (Hf g1).
  destruct (fin g1) as [[[u | e] g2] t2]; unfold trace in *; cbn [snd] in *; auto.
Qed.

Lemma always_interleave (mus : list mutation) :
  Q (map Other mus) -> always Q (interleave mus).
Proof. intros H g. exact H. Qed.

Lemma always_emit (ev : event) : Q [ev] -> always Q (emit ev).
Proof. intros H g. exact H. Qed.

Lemma always_write (mu : mutation) : Q [Own mu] -> always Q (write mu).
Proof. intros H g. exact H. Qed.

End TraceProperty.

(** ** The handler *)

Lemma consistent_read_loop websocket frames fin :
  consistent (read_loop websocket frames fin).
Proof.
  induction frames as [| d rest IH]; simpl.
  - consistency.
  - apply consistent_bind; [auto with relay | intro].
    apply consistent_bind; [apply consistent_broadcast | intro; exact IH].
Qed.

Lemma consistent_handler websocket path s : consistent (handler websocket path s).
Proof.
  unfold handler. destruct (String.eqb path "/browser").
  - apply consistent_bind; [auto with relay | intro].
    apply consistent_try_finally; [| auto with relay].
    apply consistent_try_except; [apply consistent_read_loop | consistency].
  - consistency.
Qed.

Lemma consistent_print_stats sleeps : consistent (print_stats sleeps).
Proof.
  induction sleeps as [| others rest IH]; simpl; [auto with relay |].
  apply consistent_bind; [auto with relay | intro].
  apply consistent_bind; [auto with relay | intro].
  apply consistent_bind; [exact IH | intro; auto with relay].
Qed.

(** ** The shape of a broadcast, whatever the other tasks do *)

Lemma step_trace_events tk client message :
  Forall (pass_event message) (step_trace tk client message).
Proof.
  unfold step_trace. constructor; [reflexivity |].
  apply Forall_app. split.
  - apply Forall_forall. intros ev Hin. apply in_map_iff in Hin.
    destruct Hin as [mu [<- _]]. exact I.
  - destruct (completes tk); repeat constructor.
Qed.

Lemma for_clients_events fanout message n r dead g :
  Forall (pass_event message) (trace (for_clients fanout message n r dead g)).
Proof.
  revert dead g. induction r as [| r IH]; intros dead g; rewrite for_clients_unfold;
    destruct (setiter_next _ _ _) as [[c |] | e]; try constructor.
  cbv zeta.
  specialize (IH (step_dead (fanout (n - S r)) c dead) (step_state (fanout (n - S r)) g)).
  destruct (for_clients _ _ _ _ _ _) as [[res g2] t2]. unfold trace in *; cbn [snd] in *.
  apply Forall_app. split; [apply step_trace_events | exact IH].
Qed.

Lemma step_dead_failed tk client message dead d :
  In d (step_dead tk client dead) ->
  In d dead \/ exists e, In (Send d message (Raise e)) (step_trace tk client message).
Proof.
  unfold step_dead, step_trace. destruct (completes tk) as [[] | e]; [now left |].
  rewrite PySetFacts.In_add. intros [-> | H]; [right | now left].
  exists e. now left.
Qed.

Lemma for_clients_dead fanout message n r dead g dead' :
  outcome (for_clients fanout message n r dead g) = Ok dead' ->
  forall d, In d dead' ->
    In d dead \/
    exists e, In (Send d message (Raise e)) (trace (for_clients fanout message n r dead g)).
Proof.
  revert dead g. induction r as [| r IH]; intros dead g; rewrite for_clients_unfold;
    destruct (setiter_next _ _ _) as [[c |] | e]; unfold outcome, trace; cbn [fst snd];
    try (intros [= <-] d Hd; now left); try discriminate.
  cbv zeta.
  specialize (IH (step_dead (fanout (n - S r)) c dead) (step_state (fanout (n - S r)) g)).
  destruct (for_clients _ _ _ _ _ _) as [[res g2] t2]. unfold outcome, trace in *; cbn [fst snd] in *.
  intros Hres d Hd. destruct (IH Hres d Hd) as [H | [e H]].
  - apply (step_dead_failed _ _ message) in H. destruct H as [H | [e H]]; [now left | right].
    exists e. apply in_or_app. now left.
  - right. exists e. apply in_or_app. now right.
Qed.

Lemma broadcast_shape fanout message g :
  exists pass dead,
    trace (broadcast_to_unity fanout message g)
      = pass ++ map (fun d => Own (UnityDiscard d)) dead /\
    Forall (pass_event message) pass /\
    (forall d, In d dead -> exists e, In (Send d message (Raise e)) pass).
Proof.
  rewrite broadcast_unfold. destruct (unity_clients g) as [| c s].
  - exists [], []. repeat split; [constructor | intros d []].
  - cbv zeta. set (n := PySet.len (c :: s)).
    pose proof (for_clients_events fanout message n n PySet.empty g) as Hev.
    pose proof (for_clients_dead fanout message n n PySet.empty g) as Hdead.
    destruct (for_clients _ _ _ _ _ _) as [[[dead | e] g1] t1];
      unfold outcome, trace in *; cbn [fst snd] in *.
    + exists t1, dead. repeat split; [assumption |].
      intros d Hd. destruct (Hdead dead eq_refl d Hd) as [[] | H]. exact H.
    + exists t1, []. simpl. rewrite app_nil_r. repeat split; [assumption | intros d []].
Qed.

Lemma count_zero_Forall (P : event -> Prop) f tr :
  Forall P tr -> (forall ev, P ev -> f ev = false) -> count f tr = 0.
Proof.
  intros H Hf. induction H as [| ev tr Hev _ IH]; [reflexivity |].
  rewrite count_cons, (Hf ev Hev), IH. reflexivity.
Qed.

Lemma broadcast_events fanout message g :
  Forall (fun ev => pass_event message ev \/ exists d, ev = Own (UnityDiscard d))
    (trace (broadcast_to_unity fanout message g)).
Proof.
  destruct (broadcast_shape fanout message g) as [pass [dead [-> [Hpass _]]]].
  apply Forall_app. split.
  - eapply Forall_impl; [| exact Hpass]. intros ev H. now left.
  - apply Forall_forall. intros ev Hin. apply in_map_iff in Hin.
    destruct Hin as [d [<- _]]. right. now exists d.
Qed.

(** ** The two branches of the handler *)

Lemma handler_publisher websocket path s g :
  String.eqb path "/browser" = true ->
  handler websocket path s g =
  match try_except (read_loop websocket (inbound s) (ending s))
                   [ (ClsConnectionClosed, ret tt) ] (apply (BrowserAdd websocket) g) with
  | (r, g1, t1) =>
      (r, apply (BrowserDiscard websocket) g1,
       Own (BrowserAdd websocket) :: t1 ++ [Own (BrowserDiscard websocket)])
  end.
Proof.
  intro H. unfold handler. rewrite H, bind_eq. unfold write at 1, try_finally.
  destruct (try_except _ _ _) as [[r g1] t1]. reflexivity.
Qed.

Lemma handler_subscriber websocket path s g :
  String.eqb path "/browser" = false ->
  handler websocket path s g =
  ( match completes (closing s) with
    | Ok _ | Raise ConnectionClosed => Ok tt
    | Raise e => Raise e
    end,
    apply (UnityDiscard websocket)
      (apply_all (during (closing s))
         (apply_all (during (handshake s)) (apply (UnityAdd websocket) g))),
    Own (UnityAdd websocket)
      :: Send websocket (json_dumps relay_ready) (completes (handshake s))
      :: map Other (during (handshake s))
      ++ WaitClosed websocket (completes (closing s))
      :: map Other (during (closing s))
      ++ [Own (UnityDiscard websocket)] ).
Proof.
  intro H. unfold handler. rewrite H.
  destruct (handshake s) as [hs [[] | he]]; destruct (closing s) as [cl [[] | ce]];
    try destruct he; try destruct ce;
    unfold bind, write, try_except, try_finally, await_send, await_wait_closed,
      emit, interleave, complete, ret; simpl;
    rewrite ?app_nil_r, <- ?app_assoc; reflexivity.
Qed.

Lemma read_loop_always (Q : list event -> Prop) websocket frames fin :
  Q [] -> (forall t1 t2, Q t1 -> Q t2 -> Q (t1 ++ t2)) ->
  (forall r, Q [Recv websocket r]) ->
  (forall mus, Q (map Other mus)) ->
  (forall fanout message, always Q (broadcast_to_unity fanout message)) ->
  always Q (read_loop websocket frames fin).
Proof.
  intros Qnil Qapp Qrecv Qother Qcast.
  assert (Hnext : forall tk, always Q (await_anext tk websocket)).
  { intro tk. unfold await_anext.
    apply always_bind; [assumption | apply always_emit, Qrecv | intro].
    apply always_bind; [assumption | apply always_interleave, Qother | intro].
    now apply always_complete. }
  induction frames as [| d rest IH]; simpl.
  - apply always_bind; [assumption | apply Hnext | intro; now apply always_ret].
  - apply always_bind; [assumption | apply Hnext | intro].
    apply always_bind; [assumption | apply Qcast | intro; exact IH].
Qed.

Lemma read_loop_guarded_always (Q : list event -> Prop) websocket frames fin :
  Q [] -> (forall t1 t2, Q t1 -> Q t2 -> Q (t1 ++ t2)) ->
  (forall r, Q [Recv websocket r]) ->
  (forall mus, Q (map Other mus)) ->
  (forall fanout message, always Q (broadcast_to_unity fanout message)) ->
  always Q (try_except (read_loop websocket frames fin) [ (ClsConnectionClosed, ret tt) ]).
Proof.
  intros Qnil Qapp Qrecv Qother Qcast.
  apply always_try_except; [assumption | assumption | now apply read_loop_always |].
  repeat constructor. simpl. now apply always_ret.
Qed.

Lemma no_deregistration_in_read_loop websocket c frames fin g :
  count (is_own (BrowserDiscard c))
        (trace (try_except (read_loop websocket frames fin)
                           [ (ClsConnectionClosed, ret tt) ] g)) = 0.
Proof.
  revert g.
  apply (read_loop_guarded_always (fun tr => count (is_own (BrowserDiscard c)) tr = 0)).
  - reflexivity.
  - intros t1 t2 H1 H2. now rewrite count_app, H1, H2.
  - reflexivity.
  - intro mus. now apply count_others.
  - intros fanout message g.
    eapply count_zero_Forall; [apply broadcast_events |].
    intros ev [H | [d ->]]; [| reflexivity].
    destruct ev as [[] | | | |]; simpl in H; try contradiction; reflexivity.
Qed.

Lemma balanced_read_loop websocket frames fin g :
  count is_own_incr
        (trace (try_except (read_loop websocket frames fin)
                           [ (ClsConnectionClosed, ret tt) ] g)) =
  count is_sent
        (trace (try_except (read_loop websocket frames fin)
                           [ (ClsConnectionClosed, ret tt) ] g)).
Proof.
  revert g.
  apply (read_loop_guarded_always (fun tr => count is_own_incr tr = count is_sent tr)).
  - reflexivity.
  - intros t1 t2 H1 H2. now rewrite !count_app, H1, H2.
  - reflexivity.
  - intro mus. now rewrite !count_others.
  - intros fanout message g. apply broadcast_incr.
Qed.

(** ** Routing *)

(** C6.  Routing is a total function of the request path: the handler
    registers the connection as a publisher exactly when the path is
    ["/browser"], and as a subscriber for every other path, the root path
    included; it registers every connection, whatever the path. *)
Theorem routing_is_total_on_the_path (websocket : conn) (path : string)
    (s : session) (g : relay) :
  (classified websocket path s g Publisher <-> path = "/browser") /\
  (classified websocket path s g Subscriber <-> path <> "/browser") /\
  (exists r, classified websocket path s g r) /\
  classified websocket "/" s g Subscriber.
Proof.
  unfold classified.
  assert (Hroot : hd_error (trace (handler websocket "/" s g))
                  = Some (Own (registration Subscriber websocket))).
  { rewrite handler_subscriber by reflexivity. reflexivity. }
  destruct (String.eqb path "/browser") eqn:E.
  - pose proof E as Heq. apply String.eqb_eq in Heq.
    rewrite (handler_publisher _ _ _ _ E).
    destruct (try_except _ _ _) as [[r g1] t1]. unfold trace; cbn [snd hd_error registration].
    repeat split; try tauto; try congruence.
    now exists Publisher.
  - pose proof E as Hneq. apply String.eqb_neq in Hneq.
    rewrite (handler_subscriber _ _ _ _ E). unfold trace; cbn [snd hd_error registration].
    repeat split; try tauto; try congruence.
    now exists Subscriber.
Qed.

(** ** The life of a subscriber *)



(** ** Leaving *)

(** C8.  However the handler of a connection ends (the frames end with a
    close that is no error, with one that is, or with any other exception;
    the wait for the close returns or raises; a broadcast raises), it has
    removed the connection from the registry of its role exactly once, as
    the last thing it did, and the connection is not in that registry when
    it exits. *)
Theorem handler_deregisters_exactly_once (websocket : conn) (path : string)
    (s : session) (g : relay) :
  let r := if String.eqb path "/browser" then Publisher else Subscriber in
  let run := handler websocket path s g in
  count (is_own (deregistration r websocket)) (trace run) = 1 /\
  (exists before, trace run = before ++ [Own (deregistration r websocket)]) /\
  PySet.mem websocket (registry r (final run)) = false.
Proof.
  cbv zeta. destruct (String.eqb path "/browser") eqn:E.
  - rewrite (handler_publisher _ _ _ _ E).
    pose proof (no_deregistration_in_read_loop websocket websocket (inbound s) (ending s)
                  (apply (BrowserAdd websocket) g)) as H0.
    destruct (try_except _ _ _) as [[r g1] t1].
    unfold trace, final in *; cbn [fst snd deregistration registry] in *.
    repeat split.
    + rewrite count_cons, count_app, H0. unfold count. simpl. now rewrite Nat.eqb_refl.
    + now exists (Own (BrowserAdd websocket) :: t1).
    + apply PySetFacts.mem_discard_same.
  - rewrite (handler_subscriber _ _ _ _ E).
    unfold trace, final; cbn [fst snd deregistration registry].
    repeat split.
    + rewrite !count_cons, count_app, count_cons, count_app, count_others by reflexivity.
      rewrite count_others by reflexivity. unfold count. simpl. now rewrite Nat.eqb_refl.
    + eexists (Own (UnityAdd websocket) :: Send websocket _ _ :: _ ++ WaitClosed websocket _ :: _).
      simpl. now rewrite <- app_assoc.
    + apply PySetFacts.mem_discard_same.
Qed.

(** ** The forwarded-message counter *)

Lemma print_stats_reads_only sleeps g :
  Forall (fun ev => exists mu, ev = Other mu) (trace (print_stats sleeps g)).
Proof.
  revert g. change (always (Forall (fun ev => exists mu, ev = Other mu)) (print_stats sleeps)).
  assert (Happ : forall t1 t2 : list event,
            Forall (fun ev => exists mu, ev = Other mu) t1 ->
            Forall (fun ev => exists mu, ev = Other mu) t2 ->
            Forall (fun ev => exists mu, ev = Other mu) (t1 ++ t2)).
  { intros t1 t2 H1 H2. apply Forall_app. now split. }
  induction sleeps as [| others rest IH]; simpl.
  - now apply always_ret.
  - apply always_bind; [exact Happ | | intro].
    + apply always_interleave. apply Forall_forall. intros ev Hin.
      apply in_map_iff in Hin. destruct Hin as [mu [<- _]]. now exists mu.
    + apply always_bind; [exact Happ | now apply always_get | intro].
      apply always_bind; [exact Happ | exact IH | intro].
      now apply always_ret.
Qed.

(** C5.  The counter never decreases: each of the five writes of the
    program leaves it equal or one higher.  Over a call of
    [broadcast_to_unity] it grows by one for each send that succeeded and
    by nothing for a send that failed (apart from the increments the other
    tasks make during the suspensions).  The handler outside its
    broadcasts, and [print_stats], never write it: a subscriber handler
    and the stats loop leave it as the other tasks made it, and the
    increments in a publisher handler are those of the successful sends of
    its broadcasts. *)
Theorem forwarded_counter_only_counts_successful_sends :
  (forall mu g, (messages_forwarded g <= messages_forwarded (apply mu g))%Z) /\
  (forall tk client message dead g,
     messages_forwarded (final (attempt tk client message dead g)) =
     (messages_forwarded (apply_all (during tk) g)
      + match completes tk with Ok _ => 1 | Raise _ => 0 end)%Z) /\
  (forall fanout message g,
     let run := broadcast_to_unity fanout message g in
     messages_forwarded (final run) =
     (messages_forwarded g + Z.of_nat (count is_sent (trace run))
                           + Z.of_nat (count is_other_incr (trace run)))%Z) /\
  (forall websocket path s g,
     let run := handler websocket path s g in
     messages_forwarded (final run) =
     (messages_forwarded g
      + Z.of_nat (if String.eqb path "/browser" then count is_sent (trace run) else 0)
      + Z.of_nat (count is_other_incr (trace run)))%Z) /\
  (forall sleeps g,
     let run := print_stats sleeps g in
     messages_forwarded (final run) =
     (messages_forwarded g + Z.of_nat (count is_other_incr (trace run)))%Z).
Proof.
  repeat split.
  - intros mu g. rewrite forwarded_apply. destruct mu; lia.
  - intros tk client message dead g. rewrite attempt_run. unfold final; cbn [fst snd].
    unfold step_state. destruct (completes tk); [apply forwarded_apply | lia].
  - intros fanout message g run. subst run.
    rewrite (forwarded_of_run _ g (consistent_broadcast fanout message)).
    now rewrite broadcast_incr.
  - intros websocket path s g run. subst run.
    rewrite (forwarded_of_run _ g (consistent_handler websocket path s)).
    do 2 f_equal. f_equal. destruct (String.eqb path "/browser") eqn:E.
    + rewrite (handler_publisher _ _ _ _ E).
      pose proof (balanced_read_loop websocket (inbound s) (ending s)
                    (apply (BrowserAdd websocket) g)) as H.
      destruct (try_except _ _ _) as [[r g1] t1]. unfold trace in *; cbn [snd] in *.
      rewrite !count_cons, !count_app, H. reflexivity.
    + rewrite (handler_subscriber _ _ _ _ E). unfold trace; cbn [snd].
      rewrite !count_cons, count_app, count_cons, count_app, count_others by reflexivity.
      rewrite count_others by reflexivity. reflexivity.
  - intros sleeps g run. subst run.
    rewrite (forwarded_of_run _ g (consistent_print_stats sleeps)).
    rewrite (count_zero_Forall _ is_own_incr _ (print_stats_reads_only sleeps g)).
    + lia.
    + intros ev [mu ->]. reflexivity.
Qed.

(** ** Which clients end up dead *)

Lemma step_dead_iff tk client message dead d :
  In d (step_dead tk client dead) <->
  In d dead \/ exists e, In (Send d message (Raise e)) (step_trace tk client message).
Proof.
  unfold step_dead, step_trace. destruct (completes tk) as [[] | e].
  - split; [now left |]. intros [H | [e H]]; [assumption | exfalso].
    destruct H as [H | H]; [discriminate |].
    apply in_app_or in H. destruct H as [H | [H | []]]; [| discriminate].
    apply in_map_iff in H. destruct H as [mu [H _]]. discriminate.
  - rewrite PySetFacts.In_add. split.
    + intros [-> | H]; [right | now left]. exists e. now left.
    + intros [H | [e' H]]; [now right |].
      destruct H as [H | H]; [left; congruence |].
      apply in_app_or in H. destruct H as [H | []].
      apply in_map_iff in H. destruct H as [mu [H _]]. discriminate.
Qed.

Lemma for_clients_dead_iff fanout message n r dead g dead' :
  outcome (for_clients fanout message n r dead g) = Ok dead' ->
  forall d, In d dead' <->
    In d dead \/
    exists e, In (Send d message (Raise e)) (trace (for_clients fanout message n r dead g)).
Proof.
  revert dead g. induction r as [| r IH]; intros dead g; rewrite for_clients_unfold;
    destruct (setiter_next _ _ _) as [[c |] | e]; unfold outcome, trace; cbn [fst snd];
    try discriminate;
    try (intros [= <-] d; split; [now left | intros [H | [e [] ]]; assumption]).
  cbv zeta.
  specialize (IH (step_dead (fanout (n - S r)) c dead) (step_state (fanout (n - S r)) g)).
  destruct (for_clients _ _ _ _ _ _) as [[res g2] t2]. unfold outcome, trace in *; cbn [fst snd] in *.
  intros Hres d. rewrite (IH Hres d), (step_dead_iff _ _ message). split.
  - intros [[H | [e H]] | [e H]]; [now left | right; exists e; apply in_or_app; now left
                                  | right; exists e; apply in_or_app; now right].
  - intros [H | [e H]]; [now left; left |].
    apply in_app_or in H. destruct H as [H | H]; [left; right | right]; now exists e.
Qed.

Lemma unity_after_discards dead g :
  unity_clients (apply_all (map UnityDiscard dead) g) =
  fold_left (fun s d => PySet.discard d s) dead (unity_clients g).
Proof.
  revert g. induction dead as [| d rest IH]; intro g; [reflexivity |].
  simpl. unfold apply_all in *. simpl. rewrite IH. reflexivity.
Qed.

Lemma In_after_discards dead s c :
  In c (fold_left (fun s d => PySet.discard d s) dead s) <-> In c s /\ ~ In c dead.
Proof.
  revert s. induction dead as [| d rest IH]; intro s; simpl.
  - tauto.
  - rewrite IH, PySetFacts.In_discard. intuition congruence.
Qed.

Lemma broadcast_prunes_failed fanout message g d e :
  outcome (broadcast_to_unity fanout message g) = Ok tt ->
  In (Send d message (Raise e)) (trace (broadcast_to_unity fanout message g)) ->
  PySet.mem d (unity_clients (final (broadcast_to_unity fanout message g))) = false.
Proof.
  rewrite broadcast_unfold. destruct (unity_clients g) as [| c s] eqn:Es.
  - intros _ [].
  - cbv zeta. set (n := PySet.len (c :: s)).
    pose proof (for_clients_dead_iff fanout message n n PySet.empty g) as Hdead.
    destruct (for_clients _ _ _ _ _ _) as [[[dead | e'] g1] t1];
      unfold outcome, trace, final in *; cbn [fst snd] in *; [| discriminate].
    intros _ Hin. apply PySetFacts.mem_false.
    rewrite unity_after_discards, In_after_discards. intros [_ Hnot]. apply Hnot.
    apply (Hdead dead eq_refl d). right. exists e.
    apply in_app_or in Hin. destruct Hin as [Hin | Hin]; [assumption |].
    apply in_map_iff in Hin. destruct Hin as [x [Hx _]]. discriminate.
Qed.

(** ** A pass that the other tasks leave alone *)

Lemma for_snapshot_run fanout message pos clients dead g :
  for_snapshot fanout message pos clients dead g =
  (Ok (casualties fanout pos clients dead),
   pass_state fanout pos clients g,
   pass_trace fanout message pos clients).
Proof.
  revert pos dead g. induction clients as [| c rest IH]; intros pos dead g; simpl.
  - reflexivity.
  - rewrite bind_eq, attempt_run, IH. reflexivity.
Qed.

Lemma unity_apply_leaves mu g :
  leaves_unity mu = true -> unity_clients (apply mu g) = unity_clients g.
Proof. destruct mu; simpl; congruence. Qed.

Lemma unity_apply_all_leaves mus g :
  forallb leaves_unity mus = true -> unity_clients (apply_all mus g) = unity_clients g.
Proof.
  revert g. induction mus as [| mu mus IH]; intro g; simpl; [reflexivity |].
  rewrite andb_true_iff. intros [H1 H2]. unfold apply_all in *. simpl.
  rewrite IH by assumption. now apply unity_apply_leaves.
Qed.

Lemma unity_step_state tk g :
  forallb leaves_unity (during tk) = true ->
  unity_clients (step_state tk g) = unity_clients g.
Proof.
  intro H. unfold step_state. destruct (completes tk).
  - rewrite unity_apply_leaves by reflexivity. now apply unity_apply_all_leaves.
  - now apply unity_apply_all_leaves.
Qed.

Lemma unity_pass_state fanout pos clients g :
  (forall j, j < List.length clients ->
             forallb leaves_unity (during (fanout (pos + j))) = true) ->
  unity_clients (pass_state fanout pos clients g) = unity_clients g.
Proof.
  revert pos g. induction clients as [| c rest IH]; intros pos g H; simpl; [reflexivity |].
  rewrite IH.
  - apply unity_step_state. specialize (H 0). rewrite Nat.add_0_r in H. apply H. simpl. lia.
  - intros j Hj. replace (S pos + j) with (pos + S j) by lia. apply H. simpl. lia.
Qed.

Lemma skipn_nth_error {A} (l : list A) (p : nat) (x : A) :
  nth_error l p = Some x -> skipn p l = x :: skipn (S p) l.
Proof.
  revert l. induction p as [| p IH]; intros [| y l] H; simpl in *; try discriminate.
  - now injection H as ->.
  - now apply IH.
Qed.

Lemma for_clients_is_for_snapshot fanout message n r dead g :
  undisturbed fanout n -> PySet.len (unity_clients g) = n -> r <= n ->
  for_clients fanout message n r dead g =
  for_snapshot fanout message (n - r) (skipn (n - r) (unity_clients g)) dead g.
Proof.
  intros Hq. revert dead g. induction r as [| r IH]; intros dead g Hlen Hr;
    rewrite for_clients_unfold; unfold setiter_next; rewrite Hlen, Nat.eqb_refl.
  - rewrite Nat.sub_0_r.
    assert (nth_error (unity_clients g) n = None) as -> by (apply nth_error_None; unfold PySet.len in Hlen; lia).
    rewrite skipn_all2 by (unfold PySet.len in Hlen; lia). reflexivity.
  - destruct (nth_error (unity_clients g) (n - S r)) as [c |] eqn:E.
    + rewrite (skipn_nth_error _ _ _ E). cbv zeta. simpl for_snapshot.
      rewrite bind_eq, attempt_run.
      assert (Hu : unity_clients (step_state (fanout (n - S r)) g) = unity_clients g).
      { apply unity_step_state, Hq. lia. }
      rewrite IH; [| now rewrite Hu | lia].
      rewrite Hu. replace (n - r) with (S (n - S r)) by lia. reflexivity.
    + apply nth_error_None in E. unfold PySet.len in Hlen. lia.
Qed.

Lemma broadcast_is_broadcast_snapshot fanout message g :
  undisturbed fanout (PySet.len (unity_clients g)) ->
  broadcast_to_unity fanout message g = broadcast_snapshot fanout message g.
Proof.
  intro Hq. unfold broadcast_to_unity, broadcast_snapshot.
  rewrite !bind_eq. unfold get. cbv beta iota.
  destruct (negb (PySet.truthy (unity_clients g))); [reflexivity |].
  rewrite !bind_eq.
  rewrite for_clients_is_for_snapshot by (auto; lia).
  rewrite Nat.sub_diag. reflexivity.
Qed.

Lemma broadcast_undisturbed_run fanout message g :
  undisturbed fanout (PySet.len (unity_clients g)) ->
  let dead := casualties fanout 0 (unity_clients g) PySet.empty in
  broadcast_to_unity fanout message g =
  (Ok tt,
   apply_all (map UnityDiscard dead) (pass_state fanout 0 (unity_clients g) g),
   pass_trace fanout message 0 (unity_clients g)
     ++ map (fun d => Own (UnityDiscard d)) dead).
Proof.
  intros Hq dead. rewrite broadcast_is_broadcast_snapshot by assumption.
  unfold broadcast_snapshot. rewrite bind_eq. unfold get. cbv beta iota.
  destruct (unity_clients g) as [| c s] eqn:E.
  - reflexivity.
  - change (negb (PySet.truthy (c :: s))) with false. cbv beta iota.
    rewrite bind_eq, for_snapshot_run, discard_dead_run. reflexivity.
Qed.

Lemma attempts_app t1 t2 : attempts (t1 ++ t2) = attempts t1 ++ attempts t2.
Proof. unfold attempts. apply flat_map_app. Qed.

Lemma attempts_others mus : attempts (map Other mus) = [].
Proof. induction mus as [| mu mus IH]; simpl; [reflexivity | exact IH]. Qed.

Lemma attempts_discards dead : attempts (map (fun d => Own (UnityDiscard d)) dead) = [].
Proof. induction dead as [| d dead IH]; simpl; [reflexivity | exact IH]. Qed.

Lemma attempts_step_trace tk client message :
  attempts (step_trace tk client message) = [(client, message)].
Proof.
  unfold step_trace.
  change (attempts (Send client message (completes tk) :: ?t))
    with ((client, message) :: attempts t).
  rewrite attempts_app, attempts_others. now destruct (completes tk).
Qed.

Lemma attempts_pass_trace fanout message pos clients :
  attempts (pass_trace fanout message pos clients) = map (fun c => (c, message)) clients.
Proof.
  revert pos. induction clients as [| c rest IH]; intro pos; [reflexivity |].
  cbn [pass_trace map]. now rewrite attempts_app, attempts_step_trace, IH.
Qed.

Lemma In_pass_trace fanout message pos clients j c :
  nth_error clients j = Some c ->
  In (Send c message (completes (fanout (pos + j)))) (pass_trace fanout message pos clients).
Proof.
  revert pos j. induction clients as [| x rest IH]; intros pos [| j] H; simpl in *;
    try discriminate.
  - injection H as ->. rewrite Nat.add_0_r. now left.
  - right. apply in_or_app. right. replace (pos + S j) with (S pos + j) by lia. now apply IH.
Qed.

Lemma casualties_iff fanout message pos clients dead d :
  In d (casualties fanout pos clients dead) <->
  In d dead \/ exists e, In (Send d message (Raise e)) (pass_trace fanout message pos clients).
Proof.
  revert pos dead. induction clients as [| c rest IH]; intros pos dead;
    cbn [casualties pass_trace].
  - split; [now left | intros [H | [e []]]; assumption].
  - rewrite IH, (step_dead_iff _ _ message). split.
    + intros [[H | [e H]] | [e H]]; [now left | right; exists e; apply in_or_app; now left
                                    | right; exists e; apply in_or_app; now right].
    + intros [H | [e H]]; [now left; left |].
      apply in_app_or in H. destruct H as [H | H]; [left; right | right]; now exists e.
Qed.

Lemma casualties_none fanout pos clients dead :
  (forall j, j < List.length clients -> completes (fanout (pos + j)) = Ok tt) ->
  casualties fanout pos clients dead = dead.
Proof.
  revert pos. induction clients as [| c rest IH]; intros pos H; simpl; [reflexivity |].
  unfold step_dead. rewrite <- (Nat.add_0_r pos) at 2. rewrite H by (simpl; lia).
  apply IH. intros j Hj. replace (S pos + j) with (pos + S j) by lia. apply H. simpl. lia.
Qed.

Lemma casualties_one fanout pos clients k failed e :
  nth_error clients k = Some failed ->
  completes (fanout (pos + k)) = Raise e ->
  (forall j, j < List.length clients -> j <> k -> completes (fanout (pos + j)) = Ok tt) ->
  casualties fanout pos clients PySet.empty = [failed].
Proof.
  revert pos k. induction clients as [| c rest IH]; intros pos [| k] Hk He Hok; simpl in *;
    try discriminate.
  - injection Hk as ->. unfold step_dead. rewrite Nat.add_0_r in He. rewrite He.
    apply casualties_none. intros j Hj. replace (S pos + j) with (pos + S j) by lia.
    apply Hok; lia.
  - unfold step_dead. rewrite <- (Nat.add_0_r pos) at 2. rewrite Hok by lia.
    apply (IH (S pos) k); [assumption | now replace (S pos + k) with (pos + S k) by lia |].
    intros j Hj Hjk. replace (S pos + j) with (pos + S j) by lia. apply Hok; lia.
Qed.

Lemma In_send_trace_discards pass dead c m r :
  In (Send c m r) (pass ++ map (fun d => Own (UnityDiscard d)) dead) <-> In (Send c m r) pass.
Proof.
  rewrite in_app_iff. split; [| now left]. intros [H | H]; [assumption |].
  apply in_map_iff in H. destruct H as [x [Hx _]]. discriminate.
Qed.

Lemma undisturbed_offsets fanout (clients : list conn) :
  undisturbed fanout (PySet.len clients) ->
  forall j, j < List.length clients -> forallb leaves_unity (during (fanout (0 + j))) = true.
Proof. intros H j Hj. apply H. exact Hj. Qed.

Lemma NoDup_tagged (message : string) (clients : list conn) :
  NoDup clients -> NoDup (map (fun c => (c, message)) clients).
Proof.
  induction 1 as [| c rest Hc _ IH]; simpl; constructor; [| assumption].
  intro H. apply in_map_iff in H. destruct H as [x [[= ->] Hx]]. contradiction.
Qed.

(** ** Delivery *)

(** X9.  When the registry holds [N >= 0] subscribers and no other task
    writes it during the call, [broadcast_to_unity] returns without an
    exception and its sends are exactly one send of the message, as it
    was given, to each subscriber that was in the registry when the call
    started, in the order of the iteration; when the registry is empty the
    call does nothing: the globals (the counter among them) are as before
    and nothing is sent. *)
Theorem broadcast_reaches_every_subscriber_once (fanout : nat -> tick unit)
    (message : string) (g : relay) :
  NoDup (unity_clients g) ->
  undisturbed fanout (PySet.len (unity_clients g)) ->
  let run := broadcast_to_unity fanout message g in
  outcome run = Ok tt /\
  attempts (trace run) = map (fun c => (c, message)) (unity_clients g) /\
  NoDup (attempts (trace run)) /\
  (forall c m, In (c, m) (attempts (trace run)) <-> In c (unity_clients g) /\ m = message) /\
  (unity_clients g = [] -> run = (Ok tt, g, [])).
Proof.
  intros Hnd Hq run.
  assert (Hatt : attempts (trace run) = map (fun c => (c, message)) (unity_clients g)).
  { subst run. rewrite broadcast_undisturbed_run by assumption. unfold trace; cbn [snd].
    now rewrite attempts_app, attempts_discards, app_nil_r, attempts_pass_trace. }
  repeat split.
  - subst run. now rewrite broadcast_undisturbed_run.
  - exact Hatt.
  - rewrite Hatt. now apply NoDup_tagged.
  - rewrite Hatt in H. apply in_map_iff in H. destruct H as [x [[= <- _] Hx]]. exact Hx.
  - rewrite Hatt in H. apply in_map_iff in H. destruct H as [x [[= _ <-] _]]. reflexivity.
  - intros [Hc ->]. rewrite Hatt. apply in_map_iff. now exists c.
  - intro Hempty. subst run. rewrite broadcast_unfold, Hempty. reflexivity.
Qed.

Lemma broadcast_reaches_every_subscriber_once_witness :
  attempts (trace (broadcast_to_unity calm "ping" two_subscribers))
  = [(1, "ping"); (2, "ping")].
Proof.
  assert (Hnd : NoDup (unity_clients two_subscribers)).
  { repeat constructor; simpl; intuition discriminate. }
  assert (Hq : undisturbed calm (PySet.len (unity_clients two_subscribers))).
  { intros i _. reflexivity. }
  exact (proj1 (proj2 (broadcast_reaches_every_subscriber_once
                         calm "ping" two_subscribers Hnd Hq))).
Defined.

(** ** Isolation of a failure *)

(** X10.  When the registry holds [N] subscribers, no other task writes it
    during the call, and the send to exactly one of them fails, the call
    returns without an exception, each of the other [N - 1] subscribers
    has been sent the message, with success, and when the call returns the
    one that failed is no longer a member of the registry, the others
    are. *)
Theorem one_failure_is_isolated (fanout : nat -> tick unit) (message : string)
    (g : relay) (k : nat) (failed : conn) (e : exn) :
  NoDup (unity_clients g) ->
  undisturbed fanout (PySet.len (unity_clients g)) ->
  nth_error (unity_clients g) k = Some failed ->
  completes (fanout k) = Raise e ->
  (forall j, j < PySet.len (unity_clients g) -> j <> k -> completes (fanout j) = Ok tt) ->
  let run := broadcast_to_unity fanout message g in
  outcome run = Ok tt /\
  In (Send failed message (Raise e)) (trace run) /\
  (forall c, In c (unity_clients g) -> c <> failed ->
             In (Send c message (Ok tt)) (trace run)) /\
  attempts (trace run) = map (fun c => (c, message)) (unity_clients g) /\
  PySet.mem failed (unity_clients (final run)) = false /\
  unity_clients (final run) = PySet.discard failed (unity_clients g) /\
  S (PySet.len (unity_clients (final run))) = PySet.len (unity_clients g).
Proof.
  intros Hnd Hq Hk He Hok run. subst run.
  rewrite broadcast_undisturbed_run by assumption. cbv zeta.
  rewrite (casualties_one fanout 0 (unity_clients g) k failed e Hk He Hok).
  unfold outcome, trace, final; cbn [fst snd map].
  assert (Hu : unity_clients
                 (apply_all [UnityDiscard failed]
                    (pass_state fanout 0 (unity_clients g) g))
               = PySet.discard failed (unity_clients g)).
  { unfold apply_all. simpl.
    now rewrite unity_pass_state by now apply undisturbed_offsets. }
  repeat split.
  - apply in_or_app. left. rewrite <- He.
    exact (In_pass_trace fanout message 0 (unity_clients g) k failed Hk).
  - intros c Hc Hne. apply In_nth_error in Hc. destruct Hc as [j Hj].
    assert (Hlt : j < PySet.len (unity_clients g)).
    { apply nth_error_Some. unfold conn in *. congruence. }
    assert (Hjk : j <> k) by congruence.
    apply in_or_app. left. rewrite <- (Hok j Hlt Hjk).
    exact (In_pass_trace fanout message 0 (unity_clients g) j c Hj).
  - rewrite attempts_app, attempts_pass_trace. simpl. now rewrite app_nil_r.
  - rewrite Hu. apply PySetFacts.mem_discard_same.
  - exact Hu.
  - rewrite Hu. apply PySetFacts.len_discard_member; [assumption |].
    eapply nth_error_In. exact Hk.
Qed.

Lemma one_failure_is_isolated_witness :
  In (Send 2 "ping" (Ok tt)) (trace (broadcast_to_unity first_fails "ping" two_subscribers)) /\
  unity_clients (final (broadcast_to_unity first_fails "ping" two_subscribers)) = [2].
Proof.
  assert (Hnd : NoDup (unity_clients two_subscribers)).
  { repeat constructor; simpl; intuition discriminate. }
  assert (Hq : undisturbed first_fails (PySet.len (unity_clients two_subscribers))).
  { intros [| [| i]] Hi; [reflexivity | reflexivity | simpl in Hi; lia]. }
  assert (Hk : nth_error (unity_clients two_subscribers) 0 = Some 1) by reflexivity.
  assert (He : completes (first_fails 0) = Raise ConnectionClosed) by reflexivity.
  assert (Hok : forall j, j < PySet.len (unity_clients two_subscribers) -> j <> 0 ->
                          completes (first_fails j) = Ok tt).
  { intros [| j] _ Hj; [contradiction | reflexivity]. }
  pose proof (one_failure_is_isolated first_fails "ping" two_subscribers 0 1
                ConnectionClosed Hnd Hq Hk He Hok) as H.
  split.
  - apply (proj1 (proj2 (proj2 H)) 2); [simpl; tauto | discriminate].
  - exact (proj1 (proj2 (proj2 (proj2 (proj2 (proj2 H)))))).
Defined.

(** ** When another task changes the registry during a send *)

Lemma broadcast_raises_on_size_change (fanout : nat -> tick unit) (message : string)
    (g : relay) :
  unity_clients g <> [] ->
  PySet.len (unity_clients (step_state (fanout 0) g)) <> PySet.len (unity_clients g) ->
  outcome (broadcast_to_unity fanout message g) = Raise RuntimeError.
Proof.
  intros Hne Hsize. rewrite broadcast_unfold.
  destruct (unity_clients g) as [| c s] eqn:E; [contradiction |].
  cbv zeta. unfold PySet.len at 1 2. cbn [List.length].
  rewrite for_clients_unfold. unfold setiter_next at 1.
  rewrite E. unfold PySet.len at 1. cbn [List.length].
  rewrite Nat.eqb_refl, Nat.sub_diag. cbn [nth_error]. cbv zeta.
  rewrite for_clients_unfold. unfold setiter_next at 1.
  apply Nat.eqb_neq in Hsize. unfold PySet.len at 2 in Hsize. cbn [List.length] in Hsize.
  rewrite Hsize. reflexivity.
Qed.

(** C3.  The claim fails on the code.  With two subscribers registered,
    the first of them closing: while the send to it is suspended its own
    handler removes it from [unity_clients], the send raises
    [ConnectionClosed], which the loop handles, and the next step of the
    iteration over [unity_clients] raises [RuntimeError] (the set changed
    size during the iteration).  That exception is raised outside the
    [try] of the loop: it leaves [broadcast_to_unity], the second
    subscriber is never sent the message, the removal loop does not run,
    and the exception ends the handler of the publisher as well. *)
Theorem broadcast_raises_when_a_subscriber_leaves_during_a_send :
  let run := broadcast_to_unity first_leaves "ping" two_subscribers in
  outcome run = Raise RuntimeError /\
  trace run = [Send 1 "ping" (Raise ConnectionClosed); Other (UnityDiscard 1)] /\
  outcome (handler 7 "/browser" (one_frame first_leaves) before_publisher)
  = Raise RuntimeError.
Proof. cbv zeta. repeat split; reflexivity. Qed.

(** C1.  The claim fails on the code.  With two subscribers registered
    and a third one connecting while the send to the first is suspended
    (its handler adds it to [unity_clients]), the next step of the
    iteration over [unity_clients] raises [RuntimeError]: the call sends
    the message to the first subscriber only, and the second, which was
    in the registry when the call started, is never sent it.  The same
    defect as C3. *)
Theorem a_subscriber_present_at_the_start_is_skipped :
  let run := broadcast_to_unity third_joins "ping" two_subscribers in
  unity_clients two_subscribers = [1; 2] /\
  outcome run = Raise RuntimeError /\
  attempts (trace run) = [(1, "ping")] /\
  ~ In (2, "ping") (attempts (trace run)).
Proof.
  cbv zeta. repeat split; try reflexivity.
  intros [H | []]. discriminate H.
Qed.

(** C2.  The claim fails on the code.  With two subscribers registered,
    the send to the first fails with [ConnectionClosed], and a third
    subscriber connects while that send is suspended: exactly one send
    has failed, yet the next step of the iteration raises [RuntimeError],
    the second subscriber is never sent the message, the removal loop
    does not run, and the client whose send failed is still a member of
    [unity_clients] when the call exits.  The same defect as C3. *)
Theorem a_failed_send_is_not_isolated_when_the_registry_changes :
  let run := broadcast_to_unity first_fails_as_third_joins "ping" two_subscribers in
  outcome run = Raise RuntimeError /\
  trace run = [Send 1 "ping" (Raise ConnectionClosed); Other (UnityAdd 3)] /\
  unity_clients (final run) = [1; 2; 3] /\
  PySet.mem 1 (unity_clients (final run)) = true.
Proof. cbv zeta. repeat split; reflexivity. Qed.

(** ** The pass is over the registry itself *)

(** C4.  The claim fails on the code.  With two subscribers registered
    and a third one connecting while the first send is suspended, a pass
    over a copy of the registry taken at the start, as the claim has it,
    sends to both and returns, whereas the code, whose pass is over
    [unity_clients] itself, sends to the first only and raises
    [RuntimeError]: the addition in the middle of the broadcast breaks the
    iteration, which the removals deferred through [dead] are there to
    prevent.  The same defect as C3. *)
Lemma live_iteration_differs_from_snapshot :
  outcome (broadcast_snapshot third_joins "ping" two_subscribers) = Ok tt /\
  attempts (trace (broadcast_snapshot third_joins "ping" two_subscribers))
  = [(1, "ping"); (2, "ping")] /\
  outcome (broadcast_to_unity third_joins "ping" two_subscribers) = Raise RuntimeError /\
  attempts (trace (broadcast_to_unity third_joins "ping" two_subscribers))
  = [(1, "ping")].
Proof. repeat split; reflexivity. Qed.

(** X11.  [broadcast_to_unity] collects the clients whose send failed
    during the pass and removes them only after the pass, whatever the
    other tasks do: its trace is a pass, made of sends of the
    message, writes of the other tasks and increments of the counter, with
    no removal, followed by the removals, each of a client whose send
    failed in the pass.  When no other task writes the registry during the
    call, the call does exactly what a pass over a copy of the registry
    taken at the start does: same outcome, same final globals, same
    trace. *)
Theorem broadcast_defers_removals_and_matches_snapshot_when_undisturbed
    (fanout : nat -> tick unit) (message : string) (g : relay) :
  (exists pass dead,
     trace (broadcast_to_unity fanout message g)
       = pass ++ map (fun d => Own (UnityDiscard d)) dead /\
     Forall (pass_event message) pass /\
     (forall d, In d dead -> exists e, In (Send d message (Raise e)) pass)) /\
  (undisturbed fanout (PySet.len (unity_clients g)) ->
   broadcast_to_unity fanout message g = broadcast_snapshot fanout message g).
Proof.
  split; [apply broadcast_shape | apply broadcast_is_broadcast_snapshot].
Qed.

Lemma broadcast_defers_removals_and_matches_snapshot_when_undisturbed_witness :
  undisturbed first_fails (PySet.len (unity_clients two_subscribers)) /\
  broadcast_to_unity first_fails "ping" two_subscribers
  = broadcast_snapshot first_fails "ping" two_subscribers.
Proof.
  assert (Hq : undisturbed first_fails (PySet.len (unity_clients two_subscribers))).
  { intros [| [| i]] Hi; [reflexivity | reflexivity | simpl in Hi; lia]. }
  split; [exact Hq |].
  exact (proj2 (broadcast_defers_removals_and_matches_snapshot_when_undisturbed
                  first_fails "ping" two_subscribers) Hq).
Defined.

(** ** What a broadcast leaves alone *)

Lemma browser_apply_leaves mu g :
  leaves_browser mu = true -> browser_clients (apply mu g) = browser_clients g.
Proof. destruct mu; simpl; congruence. Qed.

Lemma browser_apply_same mu g g' :
  browser_clients g = browser_clients g' ->
  browser_clients (apply mu g) = browser_clients (apply mu g').
Proof. intro H. destruct mu; simpl; congruence. Qed.

Lemma browser_replay tr :
  Forall (fun ev => match ev with Own mu => leaves_browser mu = true | _ => True end) tr ->
  forall g g', browser_clients g = browser_clients g' ->
    browser_clients (apply_all (writes_of tr) g)
    = browser_clients (apply_all (others_of tr) g').
Proof.
  induction 1 as [| ev tr Hev _ IH]; intros g g' Hg; [exact Hg |].
  destruct ev as [mu | mu | c m r | c r | c r]; simpl; unfold apply_all in *; simpl;
    try (now apply IH).
  - apply IH. now rewrite browser_apply_leaves.
  - apply IH. now apply browser_apply_same.
Qed.

Lemma broadcast_leaves_browser fanout message g :
  Forall (fun ev => match ev with Own mu => leaves_browser mu = true | _ => True end)
         (trace (broadcast_to_unity fanout message g)).
Proof.
  eapply Forall_impl; [| apply broadcast_events].
  intros ev [H | [d ->]]; [| reflexivity].
  destruct ev as [[] | | | |]; simpl in H; try contradiction; reflexivity || exact I.
Qed.

(** C10.  Whatever the other tasks do, the effects of a call of
    [broadcast_to_unity] are: sends of the message (it makes no other
    call on a websocket: it closes none), increments of the counter, and,
    after the pass, the removal from [unity_clients] of clients whose send
    failed in this call.  It never writes [browser_clients], which ends as
    the other tasks alone made it (unchanged when they write nothing).
    When no other task writes [unity_clients] during the call, the
    members of the registry after the call are the members before it
    whose send did not fail. *)
Theorem broadcast_only_prunes_and_counts (fanout : nat -> tick unit)
    (message : string) (g : relay) :
  let run := broadcast_to_unity fanout message g in
  (exists pass dead,
     trace run = pass ++ map (fun d => Own (UnityDiscard d)) dead /\
     Forall (pass_event message) pass /\
     (forall d, In d dead -> exists e, In (Send d message (Raise e)) pass)) /\
  browser_clients (final run) = browser_clients (apply_all (others_of (trace run)) g) /\
  (others_of (trace run) = [] -> browser_clients (final run) = browser_clients g) /\
  (undisturbed fanout (PySet.len (unity_clients g)) ->
   forall c, In c (unity_clients (final run)) <->
             In c (unity_clients g) /\
             ~ exists e, In (Send c message (Raise e)) (trace run)).
Proof.
  cbv zeta.
  assert (Hb : browser_clients (final (broadcast_to_unity fanout message g))
               = browser_clients
                   (apply_all (others_of (trace (broadcast_to_unity fanout message g))) g)).
  { rewrite (consistent_broadcast fanout message g).
    apply browser_replay; [apply broadcast_leaves_browser | reflexivity]. }
  split; [apply broadcast_shape |].
  split; [exact Hb |].
  split; [intro H; rewrite Hb, H; reflexivity |].
  intros Hq c. rewrite broadcast_undisturbed_run by assumption. cbv zeta.
  unfold final, trace; cbn [fst snd].
  rewrite unity_after_discards, In_after_discards.
  rewrite unity_pass_state by now apply undisturbed_offsets.
  rewrite (casualties_iff fanout message).
  split; intros [Hc Hn]; (split; [exact Hc |]); intro H; apply Hn.
  - right. destruct H as [e H]. exists e. now apply In_send_trace_discards in H.
  - destruct H as [[] | [e H]]. exists e. now apply In_send_trace_discards.
Qed.

Lemma broadcast_only_prunes_and_counts_witness :
  undisturbed first_fails (PySet.len (unity_clients two_subscribers)) /\
  (In 2 (unity_clients (final (broadcast_to_unity first_fails "ping" two_subscribers))) <->
   In 2 (unity_clients two_subscribers) /\
   ~ exists e, In (Send 2 "ping" (Raise e))
                  (trace (broadcast_to_unity first_fails "ping" two_subscribers))).
Proof.
  assert (Hq : undisturbed first_fails (PySet.len (unity_clients two_subscribers))).
  { intros [| [| i]] Hi; [reflexivity | reflexivity | simpl in Hi; lia]. }
  split; [exact Hq |].
  exact (proj2 (proj2 (proj2 (broadcast_only_prunes_and_counts
                                first_fails "ping" two_subscribers))) Hq 2).
Defined.

(** ** The registries as sets *)

(** C9.  Adding a connection that is a member leaves the set as it is,
    and adding never makes a duplicate; removing a connection that is no
    member leaves the set as it is, so a second removal changes nothing.
    The same holds of the writes on the two registries.  In particular,
    when a broadcast has returned, a client whose send failed is out of
    [unity_clients], and the removal that its own handler makes when it
    exits leaves the globals as they are.  The operations are total:
    none has an error case. *)
Theorem registry_mutation_is_idempotent :
  (forall c s, PySet.mem c s = true -> PySet.add c s = s) /\
  (forall c s, NoDup s -> NoDup (PySet.add c s)) /\
  (forall c s, PySet.mem c s = false -> PySet.discard c s = s) /\
  (forall c s, PySet.discard c (PySet.discard c s) = PySet.discard c s) /\
  (forall r c g, PySet.mem c (registry r g) = true -> apply (registration r c) g = g) /\
  (forall r c g, PySet.mem c (registry r g) = false -> apply (deregistration r c) g = g) /\
  (forall r c g,
     apply (deregistration r c) (apply (deregistration r c) g)
     = apply (deregistration r c) g) /\
  (forall fanout message g c e,
     let run := broadcast_to_unity fanout message g in
     outcome run = Ok tt ->
     In (Send c message (Raise e)) (trace run) ->
     apply (UnityDiscard c) (final run) = final run).
Proof.
  assert (Hdereg : forall r c g, PySet.mem c (registry r g) = false ->
                                 apply (deregistration r c) g = g).
  { intros [] c [u b n] H; simpl in *; now rewrite PySetFacts.discard_absent. }
  repeat split.
  - apply PySetFacts.add_present.
  - apply PySetFacts.NoDup_add.
  - apply PySetFacts.discard_absent.
  - apply PySetFacts.discard_twice.
  - intros [] c [u b n] H; simpl in *; now rewrite PySetFacts.add_present.
  - exact Hdereg.
  - intros [] c [u b n]; simpl; now rewrite PySetFacts.discard_twice.
  - intros fanout message g c e run Hok Hin.
    apply (Hdereg Subscriber). simpl. eapply broadcast_prunes_failed; eassumption.
Qed.

Lemma registry_mutation_is_idempotent_witness :
  PySet.add 1 [1; 2] = [1; 2] /\
  PySet.discard 3 [1; 2] = [1; 2] /\
  apply (UnityDiscard 1) (final (broadcast_to_unity first_fails "ping" two_subscribers))
  = final (broadcast_to_unity first_fails "ping" two_subscribers).
Proof.
  pose proof registry_mutation_is_idempotent as H.
  destruct H as [Hadd [_ [Hdiscard [_ [_ [_ [_ Hpruned]]]]]]].
  split; [apply Hadd; reflexivity |].
  split; [apply Hdiscard; reflexivity |].
  apply (Hpruned first_fails "ping" two_subscribers 1 ConnectionClosed);
    [reflexivity | simpl; tauto].
Defined.

(** * Further properties of the program *)

(** ** What can leave a broadcast *)

Lemma for_clients_outcome fanout message n r dead g :
  (exists dead', outcome (for_clients fanout message n r dead g) = Ok dead') \/
  outcome (for_clients fanout message n r dead g) = Raise RuntimeError.
Proof.
  revert dead g. induction r as [| r IH]; intros dead g; rewrite for_clients_unfold;
    unfold setiter_next; destruct (Nat.eqb _ _); try (now right);
    destruct (nth_error _ _) as [c |]; try (left; now exists dead).
  cbv zeta.
  specialize (IH (step_dead (fanout (n - S r)) c dead) (step_state (fanout (n - S r)) g)).
  destruct (for_clients _ _ _ _ _ _) as [[res g2] t2]. exact IH.
Qed.

Lemma disturbance_found fanout n :
  undisturbed fanout n \/
  exists i mu, i < n /\ In mu (during (fanout i)) /\ leaves_unity mu = false.
Proof.
  induction n as [| n IH].
  - left. intros i Hi. lia.
  - destruct IH as [IH | [i [mu [Hi H]]]].
    + destruct (forallb leaves_unity (during (fanout n))) eqn:E.
      * left. intros i Hi. destruct (Nat.eq_dec i n) as [-> | Hne]; [exact E |].
        apply IH. lia.
      * right. exists n.
        assert (Hex : exists mu, In mu (during (fanout n)) /\ leaves_unity mu = false).
        { induction (during (fanout n)) as [| mu mus IHm]; [discriminate |].
          simpl in E. destruct (leaves_unity mu) eqn:Emu.
          - destruct (IHm E) as [mu' [H1 H2]]. exists mu'. split; [now right | exact H2].
          - exists mu. split; [now left | exact Emu]. }
        destruct Hex as [mu [H1 H2]]. exists mu. repeat split; [lia | assumption | assumption].
    + right. exists i, mu. split; [lia | exact H].
Qed.

(** X1.  Whatever the sends and the other tasks do, a call of
    [broadcast_to_unity] either returns or raises [RuntimeError]: no
    exception of a send ever leaves it.  And it raises only when another
    task has added a client to [unity_clients], or removed one, during
    one of the sends of the call. *)
Theorem only_the_iteration_error_leaves_a_broadcast (fanout : nat -> tick unit)
    (message : string) (g : relay) :
  let run := broadcast_to_unity fanout message g in
  (outcome run = Ok tt \/ outcome run = Raise RuntimeError) /\
  (outcome run = Raise RuntimeError ->
   exists i mu, i < PySet.len (unity_clients g) /\
                In mu (during (fanout i)) /\
                leaves_unity mu = false).
Proof.
  cbv zeta. split.
  - rewrite broadcast_unfold. destruct (unity_clients g) as [| c s]; [now left |].
    cbv zeta.
    pose proof (for_clients_outcome fanout message (PySet.len (c :: s)) (PySet.len (c :: s))
                  PySet.empty g) as H.
    destruct (for_clients _ _ _ _ _ _) as [[[dead | e] g1] t1];
      unfold outcome in *; cbn [fst] in *; [now left |].
    destruct H as [[dead' H] | H]; [discriminate | injection H as ->; now right].
  - intro Hraise.
    destruct (disturbance_found fanout (PySet.len (unity_clients g))) as [Hq | H];
      [| exact H].
    rewrite broadcast_undisturbed_run in Hraise by assumption. discriminate.
Qed.

Lemma only_the_iteration_error_leaves_a_broadcast_witness :
  exists i mu, i < PySet.len (unity_clients two_subscribers) /\
               In mu (during (first_leaves i)) /\
               leaves_unity mu = false.
Proof.
  apply (proj2 (only_the_iteration_error_leaves_a_broadcast
                  first_leaves "ping" two_subscribers)).
  reflexivity.
Defined.

(** ** A change of size during the pass *)

Lemma unity_apply_same mu g g' :
  unity_clients g = unity_clients g' ->
  unity_clients (apply mu g) = unity_clients (apply mu g').
Proof. intro H. destruct mu; simpl; congruence. Qed.

Lemma unity_apply_all_same mus g g' :
  unity_clients g = unity_clients g' ->
  unity_clients (apply_all mus g) = unity_clients (apply_all mus g').
Proof.
  revert g g'. induction mus as [| mu mus IH]; intros g g' H; [exact H |].
  unfold apply_all in *. simpl. apply IH. now apply unity_apply_same.
Qed.

Lemma unity_step_state_same tk g g' :
  unity_clients g = unity_clients g' ->
  unity_clients (step_state tk g) = unity_clients (apply_all (during tk) g').
Proof.
  intro H. unfold step_state. destruct (completes tk).
  - rewrite unity_apply_leaves by reflexivity. now apply unity_apply_all_same.
  - now apply unity_apply_all_same.
Qed.

Lemma skipn_firstn_head (l : list conn) (p i : nat) (c : conn) :
  p <= i -> nth_error l p = Some c ->
  skipn p (firstn (S i) l) = c :: skipn (S p) (firstn (S i) l).
Proof.
  intros Hp Hc. apply skipn_nth_error. rewrite nth_error_firstn.
  assert (Nat.ltb p (S i) = true) as -> by (apply Nat.ltb_lt; lia). exact Hc.
Qed.

Lemma for_clients_disturbed fanout message g0 i :
  i < PySet.len (unity_clients g0) ->
  undisturbed fanout i ->
  PySet.len (unity_clients (apply_all (during (fanout i)) g0))
    <> PySet.len (unity_clients g0) ->
  forall r dead g,
    unity_clients g = unity_clients g0 ->
    r <= PySet.len (unity_clients g0) ->
    PySet.len (unity_clients g0) - r <= i ->
    outcome (for_clients fanout message (PySet.len (unity_clients g0)) r dead g)
      = Raise RuntimeError /\
    attempts (trace (for_clients fanout message (PySet.len (unity_clients g0)) r dead g))
      = map (fun c => (c, message))
            (skipn (PySet.len (unity_clients g0) - r) (firstn (S i) (unity_clients g0))).
Proof.
  set (n := PySet.len (unity_clients g0)). intros Hi Hq Hsize.
  induction r as [| r IH]; intros dead g Hu Hr Hp; [lia |].
  rewrite for_clients_unfold. unfold setiter_next. rewrite Hu. fold n.
  rewrite Nat.eqb_refl.
  destruct (nth_error (unity_clients g0) (n - S r)) as [c |] eqn:Ec;
    [| apply nth_error_None in Ec; unfold n, PySet.len in *; lia].
  cbv zeta. rewrite (skipn_firstn_head _ _ _ _ Hp Ec).
  destruct (Nat.eq_dec (n - S r) i) as [Hpi | Hpi].
  - rewrite for_clients_unfold. unfold setiter_next.
    rewrite (unity_step_state_same _ g g0 Hu), Hpi.
    apply Nat.eqb_neq in Hsize. rewrite Hsize.
    unfold outcome, trace; cbn [fst snd]. split; [reflexivity |].
    rewrite app_nil_r, attempts_step_trace.
    rewrite skipn_all2 by apply firstn_le_length. reflexivity.
  - assert (Hu1 : unity_clients (step_state (fanout (n - S r)) g) = unity_clients g0).
    { rewrite unity_step_state; [exact Hu | apply Hq; lia]. }
    destruct (IH (step_dead (fanout (n - S r)) c dead) (step_state (fanout (n - S r)) g)
                Hu1 ltac:(lia) ltac:(lia)) as [Hout Hatt].
    destruct (for_clients _ _ _ _ _ _) as [[res g2] t2].
    unfold outcome, trace in *; cbn [fst snd] in *. split; [exact Hout |].
    rewrite attempts_app, attempts_step_trace, Hatt.
    replace (n - r) with (S (n - S r)) by lia. reflexivity.
Qed.

(** X2.  When, during one of the sends of a call of [broadcast_to_unity],
    the other tasks change the number of members of [unity_clients] (a
    subscriber connects or disconnects), and they have left the registry
    alone during the sends before it, the call raises [RuntimeError] right
    after that send: the clients up to and including that one have been
    sent the message, the ones after it have not, and the call removes
    nobody from the registry, the clients whose send failed included. *)
Theorem a_change_of_size_stops_the_broadcast (fanout : nat -> tick unit)
    (message : string) (g : relay) (i : nat) :
  i < PySet.len (unity_clients g) ->
  undisturbed fanout i ->
  PySet.len (unity_clients (apply_all (during (fanout i)) g))
    <> PySet.len (unity_clients g) ->
  let run := broadcast_to_unity fanout message g in
  outcome run = Raise RuntimeError /\
  attempts (trace run)
    = map (fun c => (c, message)) (firstn (S i) (unity_clients g)) /\
  (forall d, ~ In (Own (UnityDiscard d)) (trace run)).
Proof.
  intros Hi Hq Hsize run. subst run.
  pose proof (for_clients_disturbed fanout message g i Hi Hq Hsize
                (PySet.len (unity_clients g)) PySet.empty g eq_refl (Nat.le_refl _)
                ltac:(lia)) as [Hout Hatt].
  pose proof (for_clients_events fanout message (PySet.len (unity_clients g))
                (PySet.len (unity_clients g)) PySet.empty g) as Hev.
  rewrite broadcast_unfold.
  destruct (unity_clients g) as [| c s] eqn:E; [simpl in Hi; lia |].
  cbv zeta. rewrite <- E in *.
  destruct (for_clients _ _ _ _ _ _) as [[[dead | e] g1] t1];
    unfold outcome, trace in *; cbn [fst snd] in *; [discriminate |].
  repeat split.
  - now injection Hout as ->.
  - rewrite Hatt, Nat.sub_diag. reflexivity.
  - intros d Hin. rewrite Forall_forall in Hev. exact (Hev _ Hin).
Qed.

Lemma a_change_of_size_stops_the_broadcast_witness :
  outcome (broadcast_to_unity second_leaves "ping" two_subscribers) = Raise RuntimeError /\
  attempts (trace (broadcast_to_unity second_leaves "ping" two_subscribers))
  = [(1, "ping"); (2, "ping")].
Proof.
  assert (Hi : 1 < PySet.len (unity_clients two_subscribers)) by (simpl; lia).
  assert (Hq : undisturbed second_leaves 1).
  { intros [| j] Hj; [reflexivity | lia]. }
  assert (Hsize : PySet.len (unity_clients (apply_all (during (second_leaves 1))
                                                      two_subscribers))
                  <> PySet.len (unity_clients two_subscribers)) by discriminate.
  pose proof (a_change_of_size_stops_the_broadcast second_leaves "ping" two_subscribers 1
                Hi Hq Hsize) as H.
  split; [exact (proj1 H) | exact (proj1 (proj2 H))].
Defined.

(** ** What can leave the handler *)

Lemma guarded_run {A} (body : M A) (a : A) (g : relay) :
  try_except body [ (ClsConnectionClosed, ret a) ] g =
  ( match outcome (body g) with
    | Raise ConnectionClosed => Ok a
    | r => r
    end,
    final (body g), trace (body g) ).
Proof.
  unfold try_except, outcome, final, trace.
  destruct (body g) as [[[x | e] g1] t1]; [reflexivity |].
  destruct e; simpl; rewrite ?app_nil_r; reflexivity.
Qed.

(** X3.  [ConnectionClosed] never leaves the handler, whatever the role
    of the connection: the handler returns, or it raises the
    [RuntimeError] of a broadcast or another exception of the websocket. *)
Theorem connection_closed_never_leaves_the_handler (websocket : conn) (path : string)
    (s : session) (g : relay) :
  let run := handler websocket path s g in
  outcome run = Ok tt \/
  outcome run = Raise RuntimeError \/
  outcome run = Raise OtherException.
Proof.
  cbv zeta. destruct (String.eqb path "/browser") eqn:E.
  - rewrite (handler_publisher _ _ _ _ E), guarded_run. unfold outcome at 1; cbn [fst].
    destruct (outcome _) as [[] | []]; tauto.
  - rewrite (handler_subscriber _ _ _ _ E). unfold outcome; cbn [fst].
    destruct (completes (closing s)) as [[] | []]; tauto.
Qed.

(** ** The order of the frames *)

Lemma await_anext_run tk c g :
  await_anext tk c g =
  (completes tk, apply_all (during tk) g, Recv c (completes tk) :: map Other (during tk)).
Proof.
  destruct tk as [mus [x | e]]; unfold await_anext, bind, emit, interleave, complete; simpl;
    rewrite app_nil_r; reflexivity.
Qed.

Lemma attempts_of_one_message message tr :
  Forall (fun ev => pass_event message ev \/ exists d, ev = Own (UnityDiscard d)) tr ->
  map snd (attempts tr) = repeat message (List.length (attempts tr)).
Proof.
  induction 1 as [| ev tr Hev _ IH]; [reflexivity |].
  destruct ev as [mu | mu | c m r | c r | c r]; try exact IH.
  destruct Hev as [Hev | [d Hd]]; [| discriminate].
  simpl in Hev. subst m.
  change (attempts (Send c message r :: tr)) with ((c, message) :: attempts tr).
  simpl. now rewrite IH.
Qed.

Lemma blocks_cons d frames k ks :
  blocks (d :: frames) (k :: ks) = repeat (payload d) k ++ blocks frames ks.
Proof. reflexivity. Qed.

Lemma blocks_none frames : blocks frames (repeat 0 (List.length frames)) = [].
Proof. induction frames as [| d rest IH]; [reflexivity | exact IH]. Qed.

Lemma read_loop_in_order websocket frames fin g :
  exists ks,
    List.length ks = List.length frames /\
    map snd (attempts (trace (read_loop websocket frames fin g))) = blocks frames ks.
Proof.
  revert g. induction frames as [| d rest IH]; intro g; cbn [read_loop].
  - exists []. split; [reflexivity |].
    rewrite bind_eq, await_anext_run. cbn [completes during].
    destruct (stop fin); unfold trace, ret; cbn [snd]; rewrite ?app_nil_r;
      change (attempts (Recv websocket ?r :: ?t)) with (attempts t);
      now rewrite attempts_others.
  - rewrite bind_eq, await_anext_run. cbn [completes during]. rewrite bind_eq.
    pose proof (attempts_of_one_message (payload d) _
                  (broadcast_events (fanout_of d) (payload d) (apply_all (arrival d) g)))
      as Hcast.
    destruct (broadcast_to_unity _ _ _) as [[[u | e] g2] tb]; unfold trace in *; cbn [snd] in *.
    + destruct (IH g2) as [ks [Hlen Hks]].
      destruct (read_loop websocket rest fin g2) as [[r g3] t3]. cbn [snd] in *.
      exists (List.length (attempts tb) :: ks). split; [simpl; now rewrite Hlen |].
      rewrite !attempts_app.
      change (attempts (Recv websocket ?r :: ?t)) with (attempts t).
      rewrite attempts_others, blocks_cons. cbn [app].
      now rewrite map_app, Hcast, Hks.
    + exists (List.length (attempts tb) :: repeat 0 (List.length rest)).
      split; [simpl; now rewrite repeat_length |].
      rewrite !attempts_app.
      change (attempts (Recv websocket ?r :: ?t)) with (attempts t).
      rewrite attempts_others, blocks_cons, blocks_none. cbn [app].
      now rewrite app_nil_r.
Qed.

(** X4.  The handler of a publisher forwards the frames in the order it
    received them: the messages of its sends, in the order of the sends,
    are some sends of the payload of the first frame, then some of the
    payload of the second, and so on.  No send of a frame comes after a
    send of a later frame, whatever the sends and the other tasks do. *)
Theorem publisher_forwards_in_order_of_receipt (websocket : conn) (s : session)
    (g : relay) :
  exists ks,
    List.length ks = List.length (inbound s) /\
    map snd (attempts (trace (handler websocket "/browser" s g))) = blocks (inbound s) ks.
Proof.
  rewrite handler_publisher, guarded_run by reflexivity.
  destruct (read_loop_in_order websocket (inbound s) (ending s)
              (apply (BrowserAdd websocket) g)) as [ks [Hlen Hks]].
  exists ks. split; [exact Hlen |].
  unfold trace at 1; cbn [snd].
  change (attempts (Own (BrowserAdd websocket) :: ?t)) with (attempts t).
  rewrite attempts_app. change (attempts [Own (BrowserDiscard websocket)]) with (@nil (conn * string)).
  now rewrite app_nil_r.
Qed.

(** ** A publisher whose subscribers all receive *)

Lemma count_sent_pass_trace fanout message pos clients :
  (forall j, j < List.length clients -> completes (fanout (pos + j)) = Ok tt) ->
  count is_sent (pass_trace fanout message pos clients) = List.length clients.
Proof.
  revert pos. induction clients as [| c rest IH]; intros pos H; [reflexivity |].
  cbn [pass_trace List.length]. rewrite count_app, IH.
  - unfold step_trace. rewrite count_cons, count_app, count_others by reflexivity.
    specialize (H 0 ltac:(simpl; lia)). rewrite Nat.add_0_r in H. rewrite H. reflexivity.
  - intros j Hj. replace (S pos + j) with (pos + S j) by lia. apply H. simpl. lia.
Qed.

Lemma smooth_broadcast fanout message g :
  undisturbed fanout (PySet.len (unity_clients g)) ->
  (forall i, i < PySet.len (unity_clients g) -> completes (fanout i) = Ok tt) ->
  outcome (broadcast_to_unity fanout message g) = Ok tt /\
  unity_clients (final (broadcast_to_unity fanout message g)) = unity_clients g /\
  attempts (trace (broadcast_to_unity fanout message g))
    = map (fun c => (c, message)) (unity_clients g) /\
  count is_sent (trace (broadcast_to_unity fanout message g))
    = PySet.len (unity_clients g).
Proof.
  intros Hq Hok. rewrite broadcast_undisturbed_run by assumption. cbv zeta.
  rewrite casualties_none by exact Hok.
  unfold outcome, final, trace; cbn [fst snd map]. rewrite !app_nil_r.
  repeat split.
  - change (map UnityDiscard PySet.empty) with (@nil mutation).
    change (apply_all [] ?x) with x.
    now rewrite unity_pass_state by now apply undisturbed_offsets.
  - apply attempts_pass_trace.
  - now apply count_sent_pass_trace.
Qed.

Lemma smooth_read_loop websocket frames fin g :
  Forall (smooth (PySet.len (unity_clients g))) frames ->
  let run := read_loop websocket frames fin g in
  outcome run = match stop fin with None => Ok tt | Some e => Raise e end /\
  attempts (trace run)
    = List.concat (map (fun d => map (fun c => (c, payload d)) (unity_clients g)) frames) /\
  count is_sent (trace run) = List.length frames * PySet.len (unity_clients g).
Proof.
  cbv zeta. revert g. induction frames as [| d rest IH]; intros g Hs; cbn [read_loop].
  - rewrite bind_eq, await_anext_run. cbn [completes during].
    destruct (stop fin); unfold outcome, trace, ret; cbn [fst snd]; rewrite ?app_nil_r;
      rewrite count_cons, count_others by reflexivity;
      change (attempts (Recv websocket ?r :: ?t)) with (attempts t);
      now rewrite attempts_others.
  - inversion Hs as [| d' rest' [Harr [Hq Hok]] Hrest]; subst.
    rewrite bind_eq, await_anext_run. cbn [completes during]. rewrite bind_eq.
    assert (Hu1 : unity_clients (apply_all (arrival d) g) = unity_clients g)
      by now apply unity_apply_all_leaves.
    destruct (smooth_broadcast (fanout_of d) (payload d) (apply_all (arrival d) g))
      as [Hout [Hu2 [Hatt Hcount]]]; try (rewrite Hu1; assumption).
    destruct (broadcast_to_unity _ _ _) as [[[u | e] g2] tb];
      unfold outcome, final, trace in *; cbn [fst snd] in *; [| discriminate].
    rewrite Hu1 in *.
    specialize (IH g2). rewrite Hu2 in IH. destruct (IH Hrest) as [Ho [Ha Hc]].
    destruct (read_loop websocket rest fin g2) as [[r g3] t3]. cbn [fst snd] in *.
    repeat split.
    + exact Ho.
    + rewrite !attempts_app.
      change (attempts (Recv websocket ?r :: ?t)) with (attempts t).
      rewrite attempts_others, Hatt, Ha. reflexivity.
    + rewrite !count_app, count_cons, count_others by reflexivity.
      rewrite Hcount, Hc. simpl. lia.
Qed.

(** X5.  When no other task writes [unity_clients] while a publisher is
    connected and every send succeeds, the handler of the publisher sends
    every frame it received to every subscriber of the registry, frame
    after frame in the order of receipt and, within a frame, subscriber
    after subscriber in the order of the iteration; the number of
    successful sends is the number of frames times the number of
    subscribers.  The handler then returns when the frames end with a
    close, an erroneous one included, and raises when they end with
    another exception. *)
Theorem every_frame_reaches_every_subscriber (websocket : conn) (s : session)
    (g : relay) :
  Forall (smooth (PySet.len (unity_clients g))) (inbound s) ->
  let run := handler websocket "/browser" s g in
  attempts (trace run)
    = List.concat (map (fun d => map (fun c => (c, payload d)) (unity_clients g))
                       (inbound s)) /\
  count is_sent (trace run) = List.length (inbound s) * PySet.len (unity_clients g) /\
  outcome run =
    match stop (ending s) with
    | None | Some ConnectionClosed => Ok tt
    | Some e => Raise e
    end.
Proof.
  intros Hs run. subst run.
  rewrite handler_publisher, guarded_run by reflexivity.
  destruct (smooth_read_loop websocket (inbound s) (ending s)
              (apply (BrowserAdd websocket) g) Hs) as [Ho [Ha Hc]].
  change (unity_clients (apply (BrowserAdd websocket) g)) with (unity_clients g) in *.
  unfold outcome, trace in *; cbn [fst snd] in *.
  repeat split.
  - change (attempts (Own (BrowserAdd websocket) :: ?t)) with (attempts t).
    rewrite attempts_app, Ha.
    change (attempts [Own (BrowserDiscard websocket)]) with (@nil (conn * string)).
    now rewrite app_nil_r.
  - rewrite count_cons, count_app, Hc. unfold count. simpl. lia.
  - rewrite Ho. destruct (stop (ending s)) as [[] |]; reflexivity.
Qed.

Lemma every_frame_reaches_every_subscriber_witness :
  attempts (trace (handler 7 "/browser" two_frames before_publisher))
  = [(1, "ping"); (2, "ping"); (1, "pong"); (2, "pong")].
Proof.
  assert (Hs : Forall (smooth (PySet.len (unity_clients before_publisher)))
                      (inbound two_frames)).
  { repeat constructor; intros i _; reflexivity. }
  exact (proj1 (every_frame_reaches_every_subscriber 7 two_frames before_publisher Hs)).
Defined.

(** ** Connecting and leaving *)

Lemma discard_add_fresh (c : conn) (s : PySet.t) :
  PySet.mem c s = false -> PySet.discard c (PySet.add c s) = s.
Proof.
  intro H. unfold PySet.add. rewrite H. unfold PySet.discard.
  rewrite filter_app. simpl. rewrite Nat.eqb_refl. simpl. rewrite app_nil_r.
  now apply PySetFacts.discard_absent.
Qed.

(** X6.  A connection that comes and goes leaves the globals as it found
    them.  When a subscriber that is not yet registered connects and
    closes, and no other task writes the globals meanwhile, the globals
    after its handler are the globals before it, whether its handshake
    went through or not; the same holds of a publisher that sends no
    frame. *)
Theorem a_visit_leaves_the_globals_as_they_were (websocket : conn) (path : string)
    (s : session) (g : relay) :
  (path <> "/browser" ->
   PySet.mem websocket (unity_clients g) = false ->
   during (handshake s) = [] -> during (closing s) = [] ->
   final (handler websocket path s g) = g) /\
  (path = "/browser" ->
   PySet.mem websocket (browser_clients g) = false ->
   inbound s = [] -> before_close (ending s) = [] ->
   final (handler websocket path s g) = g).
Proof.
  split.
  - intros Hpath Hfresh Hh Hc.
    rewrite handler_subscriber by now apply String.eqb_neq.
    unfold final; cbn [fst snd]. rewrite Hh, Hc.
    change (apply_all [] ?x) with x.
    destruct g as [u b n]. simpl in *. now rewrite discard_add_fresh.
  - intros Hpath Hfresh Hin Hbc. subst path.
    rewrite handler_publisher, guarded_run by reflexivity.
    unfold final; cbn [fst snd]. rewrite Hin. cbn [read_loop].
    rewrite bind_eq, await_anext_run. cbn [completes during]. rewrite Hbc.
    change (apply_all [] ?x) with x.
    destruct (stop (ending s)); unfold ret; cbn [fst snd];
      destruct g as [u b n]; simpl in *; now rewrite discard_add_fresh.
Qed.

Lemma a_visit_leaves_the_globals_as_they_were_witness :
  final (handler 5 "/" short_visit two_subscribers) = two_subscribers.
Proof.
  apply (proj1 (a_visit_leaves_the_globals_as_they_were 5 "/" short_visit two_subscribers));
    [discriminate | reflexivity | reflexivity | reflexivity].
Defined.

(** ** After a client has been pruned *)

Lemma In_attempts c m r tr : In (Send c m r) tr -> In (c, m) (attempts tr).
Proof.
  intro H. unfold attempts. apply in_flat_map. exists (Send c m r). split; [exact H | now left].
Qed.

Lemma attempts_undisturbed fanout message g :
  undisturbed fanout (PySet.len (unity_clients g)) ->
  attempts (trace (broadcast_to_unity fanout message g))
  = map (fun c => (c, message)) (unity_clients g).
Proof.
  intro Hq. rewrite broadcast_undisturbed_run by assumption. unfold trace; cbn [snd].
  now rewrite attempts_app, attempts_discards, app_nil_r, attempts_pass_trace.
Qed.

(** X7.  A client that a broadcast has found dead gets nothing from the
    next one.  When a call of [broadcast_to_unity] has returned and its
    send to a client failed, a following call from the globals it left,
    during which no other task writes [unity_clients], makes no send to
    that client. *)
Theorem a_pruned_client_gets_no_further_message (first second : nat -> tick unit)
    (m1 m2 : string) (g : relay) (c : conn) (e : exn) :
  outcome (broadcast_to_unity first m1 g) = Ok tt ->
  In (Send c m1 (Raise e)) (trace (broadcast_to_unity first m1 g)) ->
  undisturbed second
    (PySet.len (unity_clients (final (broadcast_to_unity first m1 g)))) ->
  forall r,
    ~ In (Send c m2 r)
         (trace (broadcast_to_unity second m2 (final (broadcast_to_unity first m1 g)))).
Proof.
  intros Hok Hfailed Hq r Hin.
  apply In_attempts in Hin. rewrite attempts_undisturbed in Hin by assumption.
  apply in_map_iff in Hin. destruct Hin as [x [[= ->] Hx]].
  pose proof (broadcast_prunes_failed first m1 g c e Hok Hfailed) as Hgone.
  apply PySetFacts.mem_false in Hgone. contradiction.
Qed.

Lemma a_pruned_client_gets_no_further_message_witness :
  ~ In (Send 1 "pong" (Ok tt))
       (trace (broadcast_to_unity calm "pong"
                 (final (broadcast_to_unity first_fails "ping" two_subscribers)))).
Proof.
  apply (a_pruned_client_gets_no_further_message first_fails calm "ping" "pong"
           two_subscribers 1 ConnectionClosed).
  - reflexivity.
  - simpl. tauto.
  - intros i _. reflexivity.
Defined.

(** ** The stats loop *)

Lemma forwarded_apply_all_le mus g :
  (messages_forwarded g <= messages_forwarded (apply_all mus g))%Z.
Proof.
  revert g. induction mus as [| mu mus IH]; intro g; [simpl; lia |].
  unfold apply_all in *. simpl. specialize (IH (apply mu g)).
  rewrite forwarded_apply in IH. destruct mu; lia.
Qed.

Lemma print_stats_run sleeps g :
  print_stats sleeps g =
  (Ok (map stats_of (wakeups sleeps g)),
   apply_all (List.concat sleeps) g,
   map Other (List.concat sleeps)).
Proof.
  revert g. induction sleeps as [| others rest IH]; intro g; [reflexivity |].
  cbn [print_stats wakeups List.concat map].
  rewrite bind_eq. unfold interleave at 1. rewrite bind_eq. unfold get at 1.
  rewrite bind_eq, IH. unfold ret. cbn [app].
  now rewrite app_nil_r, apply_all_app, map_app.
Qed.

Lemma wakeups_forwarded_ge sleeps g :
  Forall (fun g' => (messages_forwarded g <= messages_forwarded g')%Z) (wakeups sleeps g).
Proof.
  revert g. induction sleeps as [| others rest IH]; intro g; [constructor |].
  cbn [wakeups]. constructor; [apply forwarded_apply_all_le |].
  eapply Forall_impl; [| apply IH]. intros g' H. cbv beta in *.
  pose proof (forwarded_apply_all_le others g). lia.
Qed.

Lemma wakeups_forwarded_sorted sleeps g i j gi gj :
  i <= j ->
  nth_error (wakeups sleeps g) i = Some gi ->
  nth_error (wakeups sleeps g) j = Some gj ->
  (messages_forwarded gi <= messages_forwarded gj)%Z.
Proof.
  revert g i j. induction sleeps as [| others rest IH]; intros g i j Hij Hi Hj.
  - destruct i; discriminate.
  - cbn [wakeups] in *. destruct i as [| i], j as [| j]; simpl in Hi, Hj.
    + assert (gi = gj) by congruence. subst. apply Z.le_refl.
    + injection Hi as <-. pose proof (wakeups_forwarded_ge rest (apply_all others g)) as H.
      rewrite Forall_forall in H. apply H. eapply nth_error_In. exact Hj.
    + lia.
    + apply (IH (apply_all others g) i j); [lia | assumption | assumption].
Qed.

(** X8.  The stats loop never raises and never writes the globals: it
    shows, once per sleep, the counter and the sizes of the two registries
    as they are when the sleep ends, and ends in the state the other
    tasks made.  The forwarded count of a line is never below that of an
    earlier line, nor below the count when the loop started. *)
Theorem stats_lines_follow_the_globals (sleeps : list (list mutation)) (g : relay) :
  let run := print_stats sleeps g in
  outcome run = Ok (map stats_of (wakeups sleeps g)) /\
  final run = apply_all (List.concat sleeps) g /\
  (forall lines, outcome run = Ok lines ->
     List.length lines = List.length sleeps /\
     Forall (fun l => (messages_forwarded g <= stat_forwarded l)%Z) lines /\
     forall i j a b, i <= j -> nth_error lines i = Some a -> nth_error lines j = Some b ->
                     (stat_forwarded a <= stat_forwarded b)%Z).
Proof.
  cbv zeta. rewrite print_stats_run. unfold outcome, final; cbn [fst snd].
  repeat split.
  - injection H as <-. rewrite length_map. clear. revert g.
    induction sleeps as [| o rest IH]; intro g; simpl; [reflexivity | now rewrite IH].
  - injection H as <-. apply Forall_map. apply wakeups_forwarded_ge.
  - intros i j a b Hij Ha Hb. injection H as <-.
    rewrite nth_error_map in Ha, Hb.
    destruct (nth_error (wakeups sleeps g) i) as [gi |] eqn:Ei; [| discriminate].
    destruct (nth_error (wakeups sleeps g) j) as [gj |] eqn:Ej; [| discriminate].
    injection Ha as <-. injection Hb as <-. simpl.
    exact (wakeups_forwarded_sorted sleeps g i j gi gj Hij Ei Ej).
Qed.
